(** * e2b-go: the websocket transport of the sandbox client

    A shallow embedding of the JSON-RPC transport of the [e2b] package:
    the id allocator ([identify]), the request writer ([writeRequest]), the
    connection reader ([read]), the one-shot calls built on them ([Mkdir],
    [Ls], [Read], [Write], [WriteBytes], [ReadBytes], [Start]) and the two
    subscriptions ([Watch], [subscribe]).

    Goroutines are modelled by their steps on a shared [World]; every
    [select] whose outcome the Go scheduler decides takes that decision as
    an explicit argument. *)

From Stdlib Require Import ZArith Lia Ascii String.
From stdpp Require Import gmap strings list.

Set Warnings "-register-all".
Open Scope Z_scope.

(** ** Go's [int] *)

Module GoInt.

(** [int] is 64 bits wide on the platforms the package targets. *)
Definition max_int : Z := 2 ^ 63 - 1.
Definition min_int : Z := - 2 ^ 63.

Definition in_range (z : Z) : bool := (min_int <=? z) && (z <=? max_int).

(** Two's complement wrap-around of an arithmetic result. *)
Definition wrap (z : Z) : Z := (z + 2 ^ 63) mod 2 ^ 64 - 2 ^ 63.

End GoInt.

(** ** Frames and [encoding/json]

    A frame is the [[]byte] the websocket hands over.  The package never
    looks at the bytes themselves: every frame goes through
    [json.Unmarshal], so a frame is represented by what the JSON scanner
    makes of it, either text that is not a JSON document or the document. *)

Inductive json : Type :=
| JNull
| JBool (b : bool)
| JInt (z : Z)                       (* a number literal without fraction or exponent *)
| JReal (literal : string)           (* any other number literal *)
| JStr (s : string)
| JArr (items : list json)
| JObj (members : list (string * json)).

Inductive body : Type :=
| NotJSON (raw : string)
| Doc (v : json).

(** The nil slice a receive on a closed [chan []byte] yields. *)
Definition nil_body : body := NotJSON "".

Module Json.

(** Case folding of object keys: the decoder matches a key to a struct
    field exactly or, failing that, under Unicode simple case folding.  A
    key is the UTF-8 text the scanner produced.  Every field name of the
    package is ASCII, and the runes that fold onto ASCII letters are the
    letters of the other case, U+017F (long s, bytes C5 BF) onto [s] and
    U+212A (the Kelvin sign, bytes E2 84 AA) onto [k]; no other rune can
    take part in a match with an ASCII name, so the remaining bytes are
    left as they are. *)
Definition lower_ascii (a : ascii) : ascii :=
  let n := nat_of_ascii a in
  if ((65 <=? n) && (n <=? 90))%nat then ascii_of_nat (n + 32) else a.

Definition is_byte (n : nat) (a : ascii) : bool := (nat_of_ascii a =? n)%nat.

Fixpoint fold_name (s : string) : string :=
  match s with
  | EmptyString => EmptyString
  | String a s1 =>
      let plain := String (lower_ascii a) (fold_name s1) in
      match s1 with
      | EmptyString => plain
      | String b s2 =>
          if is_byte 197 a && is_byte 191 b then String "s" (fold_name s2)
          else
            match s2 with
            | EmptyString => plain
            | String c s3 =>
                if is_byte 226 a && is_byte 132 b && is_byte 170 c
                then String "k" (fold_name s3)
                else plain
            end
      end
  end.

Definition key_matches (field key : string) : bool :=
  bool_decide (fold_name field = fold_name key).

(** [Unmarshal T]: how a JSON value is stored into a Go value of type [T].
    [unmarshal v old] returns the new value and [true], or leaves the
    target as it was and returns [false] where [encoding/json] records an
    [UnmarshalTypeError] (it then goes on with the remaining fields). *)
Class Unmarshal (T : Type) := {
  zero : T;
  unmarshal : json -> T -> T * bool
}.

#[global] Instance unmarshal_string : Unmarshal string := {|
  zero := EmptyString;
  unmarshal v old :=
    match v with
    | JNull => (old, true)
    | JStr s => (s, true)
    | _ => (old, false)
    end
|}.

#[global] Instance unmarshal_int : Unmarshal Z := {|
  zero := 0;
  unmarshal v old :=
    match v with
    | JNull => (old, true)
    | JInt z => if GoInt.in_range z then (z, true) else (old, false)
    | _ => (old, false)
    end
|}.

#[global] Instance unmarshal_bool : Unmarshal bool := {|
  zero := false;
  unmarshal v old :=
    match v with
    | JNull => (old, true)
    | JBool b => (b, true)
    | _ => (old, false)
    end
|}.

(** [any]: the decoder stores whatever document it finds. *)
#[global] Instance unmarshal_any : Unmarshal json := {|
  zero := JNull;
  unmarshal v _ := (v, true)
|}.

(** Slices: [null] gives the nil slice, an array gives one freshly
    decoded element per item. *)
Fixpoint unmarshal_items {T} `{Unmarshal T} (items : list json) : list T * bool :=
  match items with
  | [] => ([], true)
  | v :: items' =>
      let '(x, ok) := unmarshal v zero in
      let '(xs, oks) := unmarshal_items items' in
      (x :: xs, ok && oks)
  end.

#[global] Instance unmarshal_slice {T} `{Unmarshal T} : Unmarshal (list T) := {|
  zero := [];
  unmarshal v old :=
    match v with
    | JNull => ([], true)
    | JArr items => unmarshal_items items
    | _ => (old, false)
    end
|}.

(** Structs: the members of an object are stored one after the other,
    each into the field [set_field] finds for its key; keys with no field
    are skipped. *)
Fixpoint unmarshal_members {S} (set_field : string -> json -> S -> option (S * bool))
    (members : list (string * json)) (s : S) : S * bool :=
  match members with
  | [] => (s, true)
  | (k, v) :: members' =>
      match set_field k v s with
      | None => unmarshal_members set_field members' s
      | Some (s', ok) =>
          let '(s'', oks) := unmarshal_members set_field members' s' in
          (s'', ok && oks)
      end
  end.

Definition unmarshal_struct {S} (set_field : string -> json -> S -> option (S * bool))
    (v : json) (s : S) : S * bool :=
  match v with
  | JNull => (s, true)
  | JObj members => unmarshal_members set_field members s
  | _ => (s, false)
  end.

(** [json.Unmarshal(data, &target)]: a syntax error leaves the target
    untouched; otherwise the target is filled as far as the types allow
    and the flag tells whether an error is returned. *)
Definition Unmarshal_into {T} `{Unmarshal T} (data : body) (target : T) : T * bool :=
  match data with
  | NotJSON _ => (target, false)
  | Doc v => unmarshal v target
  end.

End Json.
Import Json.

(** ** Wire types (transport.go, filesystem and process files) *)

Definition Method := string.

Definition field {S T} `{Unmarshal T} (get : S -> T) (set : T -> S -> S)
    (v : json) (s : S) : option (S * bool) :=
  let '(x, ok) := unmarshal v (get s) in Some (set x s, ok).

(** [Request], with the parameters in their JSON form. *)
Module Request.
Record t := mk { JSONRPC : string; Method : Method; ID : Z; Params : list json }.

Definition set_field (k : string) (v : json) (r : t) : option (t * bool) :=
  if key_matches "jsonrpc" k then
    field JSONRPC (fun x r => mk x (Method r) (ID r) (Params r)) v r
  else if key_matches "method" k then
    field Method (fun x r => mk (JSONRPC r) x (ID r) (Params r)) v r
  else if key_matches "id" k then
    field ID (fun x r => mk (JSONRPC r) (Method r) x (Params r)) v r
  else if key_matches "params" k then
    field Params (fun x r => mk (JSONRPC r) (Method r) (ID r) x) v r
  else None.

#[global] Instance unmarshal_t : Unmarshal t := {|
  zero := mk "" "" 0 [];
  unmarshal := unmarshal_struct set_field
|}.
End Request.

Definition rpc : string := "2.0".

(** [APIError]. *)
Module APIError.
Record t := mk { Code : Z; Message : string }.

Definition set_field (k : string) (v : json) (e : t) : option (t * bool) :=
  if key_matches "code" k then field Code (fun x e => mk x (Message e)) v e
  else if key_matches "message" k then field Message (fun x e => mk (Code e) x) v e
  else None.

#[global] Instance unmarshal_t : Unmarshal t := {|
  zero := mk 0 "";
  unmarshal := unmarshal_struct set_field
|}.
End APIError.

(** [Response[T, Q]]. *)
Module Response.
Record t (T Q : Type) := mk { ID : Z; Result : T; Error : Q }.
Arguments mk {T Q}.
Arguments ID {T Q}.
Arguments Result {T Q}.
Arguments Error {T Q}.

Definition set_field {T Q} `{Unmarshal T} `{Unmarshal Q}
    (k : string) (v : json) (r : t T Q) : option (t T Q * bool) :=
  if key_matches "id" k then field ID (fun x r => mk x (Result r) (Error r)) v r
  else if key_matches "result" k then field Result (fun x r => mk (ID r) x (Error r)) v r
  else if key_matches "error" k then field Error (fun x r => mk (ID r) (Result r) x) v r
  else None.

#[global] Instance unmarshal_t {T Q} `{Unmarshal T} `{Unmarshal Q} : Unmarshal (t T Q) := {|
  zero := mk 0 zero zero;
  unmarshal := unmarshal_struct set_field
|}.
End Response.

(** [LsResult]. *)
Module LsResult.
Record t := mk { Name : string; IsDir : bool }.

Definition set_field (k : string) (v : json) (r : t) : option (t * bool) :=
  if key_matches "name" k then field Name (fun x r => mk x (IsDir r)) v r
  else if key_matches "isDir" k then field IsDir (fun x r => mk (Name r) x) v r
  else None.

#[global] Instance unmarshal_t : Unmarshal t := {|
  zero := mk "" false;
  unmarshal := unmarshal_struct set_field
|}.
End LsResult.

(** [EventResult], [EventParams] and [Event]. *)
Module EventResult.
Record t := mk {
  Type_ : string; Line : string; Timestamp : Z; IsDirectory : bool; Error : string }.

Definition set_field (k : string) (v : json) (r : t) : option (t * bool) :=
  if key_matches "type" k then
    field Type_ (fun x r => mk x (Line r) (Timestamp r) (IsDirectory r) (Error r)) v r
  else if key_matches "line" k then
    field Line (fun x r => mk (Type_ r) x (Timestamp r) (IsDirectory r) (Error r)) v r
  else if key_matches "timestamp" k then
    field Timestamp (fun x r => mk (Type_ r) (Line r) x (IsDirectory r) (Error r)) v r
  else if key_matches "isDirectory" k then
    field IsDirectory (fun x r => mk (Type_ r) (Line r) (Timestamp r) x (Error r)) v r
  else if key_matches "error" k then
    field Error (fun x r => mk (Type_ r) (Line r) (Timestamp r) (IsDirectory r) x) v r
  else None.

#[global] Instance unmarshal_t : Unmarshal t := {|
  zero := mk "" "" 0 false "";
  unmarshal := unmarshal_struct set_field
|}.
End EventResult.

Module EventParams.
Record t := mk { Subscription : string; Result : EventResult.t }.

Definition set_field (k : string) (v : json) (p : t) : option (t * bool) :=
  if key_matches "subscription" k then field Subscription (fun x p => mk x (Result p)) v p
  else if key_matches "result" k then field Result (fun x p => mk (Subscription p) x) v p
  else None.

#[global] Instance unmarshal_t : Unmarshal t := {|
  zero := mk "" zero;
  unmarshal := unmarshal_struct set_field
|}.
End EventParams.

Module Event.
Record t := mk {
  Path : string; Name : string; Timestamp : Z; Error : string; Params : EventParams.t }.

Definition set_field (k : string) (v : json) (e : t) : option (t * bool) :=
  if key_matches "path" k then
    field Path (fun x e => mk x (Name e) (Timestamp e) (Error e) (Params e)) v e
  else if key_matches "name" k then
    field Name (fun x e => mk (Path e) x (Timestamp e) (Error e) (Params e)) v e
  else if key_matches "timestamp" k then
    field Timestamp (fun x e => mk (Path e) (Name e) x (Error e) (Params e)) v e
  else if key_matches "error" k then
    field Error (fun x e => mk (Path e) (Name e) (Timestamp e) x (Params e)) v e
  else if key_matches "params" k then
    field Params (fun x e => mk (Path e) (Name e) (Timestamp e) (Error e) x) v e
  else None.

#[global] Instance unmarshal_t : Unmarshal t := {|
  zero := mk "" "" 0 "" zero;
  unmarshal := unmarshal_struct set_field
|}.
End Event.

(** The local [decResp] of [read]: just enough of a frame to route it.
    Its [Params] field has no tag and is matched by its Go name. *)
Module decResp.
Record params := mkParams { Subscription : string }.
Record t := mk { Method : string; ID : Z; Params : params }.

Definition set_params_field (k : string) (v : json) (p : params) : option (params * bool) :=
  if key_matches "subscription" k then field Subscription (fun x _ => mkParams x) v p
  else None.

#[global] Instance unmarshal_params : Unmarshal params := {|
  zero := mkParams "";
  unmarshal := unmarshal_struct set_params_field
|}.

Definition set_field (k : string) (v : json) (d : t) : option (t * bool) :=
  if key_matches "method" k then field Method (fun x d => mk x (ID d) (Params d)) v d
  else if key_matches "id" k then field ID (fun x d => mk (Method d) x (Params d)) v d
  else if key_matches "Params" k then field Params (fun x d => mk (Method d) (ID d) x) v d
  else None.

#[global] Instance unmarshal_t : Unmarshal t := {|
  zero := mk "" 0 zero;
  unmarshal := unmarshal_struct set_field
|}.
End decResp.

(** Errors the package returns.  [fmt.Errorf] keeps its format and
    arguments instead of the rendered text. *)
Inductive fmt_arg : Type :=
| ArgStr (s : string)
| ArgInt (z : Z).

Inductive error : Type :=
| ctx_Err                                  (* ctx.Err() of a done context *)
| json_error                               (* a syntax or type error of json.Unmarshal *)
| ws_read_error                            (* the error of ws.ReadMessage *)
| ws_write_error                           (* the error of ws.WriteMessage *)
| base64_error
| Errorf (format : string) (args : list fmt_arg)
| Errorf_wrap (format : string) (args : list fmt_arg) (cause : error).

(** A Go result [(T, error)] of which exactly one part is set. *)
Inductive result (A : Type) : Type :=
| Ok (a : A)
| Err (e : error).
Arguments Ok {A}.
Arguments Err {A}.

(** [decodeResponse[T, Q]] (transport.go). *)
Definition decodeResponse (T Q : Type) `{Unmarshal T} `{Unmarshal Q}
    (b : body) : result (Response.t T Q) :=
  let '(decResp, ok) := Unmarshal_into b (zero : Response.t T Q) in
  if ok then Ok decResp else Err json_error.

(** ** The state the goroutines share *)

(** Keys of [s.Map]: a [sync.Map] key is an [any], here an [int] (request
    id) or a [string] (subscription token or whatever else is looked up). *)
Inductive key : Type :=
| KInt (id : Z)
| KString (s : string).

#[global] Instance key_eq_dec : EqDecision key.
Proof. solve_decision. Defined.

Definition key_to_sum (k : key) : Z + string :=
  match k with KInt id => inl id | KString s => inr s end.

Definition key_of_sum (x : Z + string) : key :=
  match x with inl id => KInt id | inr s => KString s end.

Definition key_of_to_sum (k : key) : key_of_sum (key_to_sum k) = k :=
  match k with
  | KInt _ => eq_refl
  | KString _ => eq_refl
  end.

#[global] Instance key_countable : Countable key :=
  inj_countable' key_to_sum key_of_sum key_of_to_sum.

(** Values of [s.Map] with their dynamic type: the type assertions of
    [read] and [Done] tell them apart.  Channels are named by a number. *)
Inductive mapval : Type :=
| chan_bytes (c : nat)           (* chan []byte *)
| chan_send_Event (c : nat)      (* chan<- Event *)
| chan_recv_unit (c : nat).      (* <-chan struct{} *)

(** An unbuffered [chan []byte] has one receiving goroutine, its maker.
    [receiving] holds while that goroutine is blocked in a receive on the
    channel; a send then hands the value over ([handed]) and releases it.
    A send with no receiver blocks, a send on a closed channel panics. *)
Record Chan : Type := mkChan {
  receiving : bool;
  handed : option body;
  closed : bool
}.

Definition new_chan : Chan := mkChan false None false.

(** A [chan Event] towards the user of the package: the events sent on it
    so far, oldest first, and whether it has been closed. *)
Record EventChan : Type := mkEventChan {
  sent : list Event.t;
  ev_closed : bool
}.

Definition new_event_chan : EventChan := mkEventChan [] false.

(** The websocket [s.ws]: frames the peer has sent and that are not read
    yet, frames written to the peer, and whether the connection is closed. *)
Inductive ws_event : Type :=
| ws_message (msg : body)
| ws_failure.                    (* ReadMessage returns an error *)

Record Conn : Type := mkConn {
  inbound : list ws_event;
  written : list Request.t;
  ws_closed : bool
}.

(** The [identify] goroutine: at the head of its loop with counter [id],
    blocked sending [id] on [s.idCh], or returned. *)
Inductive ident : Type :=
| AtLoop (id : Z)
| Sending (id : Z)
| Exited.

Record World : Type := mkWorld {
  Map : gmap key mapval;         (* s.Map *)
  idCh : ident;                  (* s.idCh and the goroutine feeding it *)
  ws : Conn;                     (* s.ws *)
  chans : gmap nat Chan;         (* every chan []byte made so far *)
  event_chans : gmap nat EventChan;
  next_chan : nat                (* the name the next make(chan ...) gets *)
}.

Definition set_Map (f : gmap key mapval -> gmap key mapval) (w : World) : World :=
  mkWorld (f (Map w)) (idCh w) (ws w) (chans w) (event_chans w) (next_chan w).
Definition set_idCh (g : ident) (w : World) : World :=
  mkWorld (Map w) g (ws w) (chans w) (event_chans w) (next_chan w).
Definition set_ws (f : Conn -> Conn) (w : World) : World :=
  mkWorld (Map w) (idCh w) (f (ws w)) (chans w) (event_chans w) (next_chan w).
Definition set_chans (f : gmap nat Chan -> gmap nat Chan) (w : World) : World :=
  mkWorld (Map w) (idCh w) (ws w) (f (chans w)) (event_chans w) (next_chan w).
Definition set_event_chans (f : gmap nat EventChan -> gmap nat EventChan) (w : World) : World :=
  mkWorld (Map w) (idCh w) (ws w) (chans w) (f (event_chans w)) (next_chan w).

(** [NewSandbox] after the dial: an empty map, [identify] about to start
    with [id := 1], an open connection. *)
Definition NewSandbox (peer : list ws_event) : World :=
  mkWorld ∅ (AtLoop 1) (mkConn peer [] false) ∅ ∅ 0.

(** [make(chan []byte)]. *)
Definition make_chan (w : World) : nat * World :=
  (next_chan w,
   mkWorld (Map w) (idCh w) (ws w) (<[next_chan w := new_chan]> (chans w))
           (event_chans w) (S (next_chan w))).

(** [make(chan Event)]. *)
Definition make_event_chan (w : World) : nat * World :=
  (next_chan w,
   mkWorld (Map w) (idCh w) (ws w) (chans w)
           (<[next_chan w := new_event_chan]> (event_chans w)) (S (next_chan w))).

(** The goroutine that made [c] blocks in a receive on it. *)
Definition block_on (c : nat) (w : World) : World :=
  set_chans (alter (fun ch => mkChan true (handed ch) (closed ch)) c) w.

(** [close(c)]. *)
Definition close_chan (c : nat) (w : World) : World :=
  set_chans (alter (fun ch => mkChan (receiving ch) (handed ch) true) c) w.

(** [c <- b] on a [chan []byte]. *)
Inductive send_result : Type :=
| Sent (w : World)
| SendBlocks
| SendPanics.

Definition chan_send (c : nat) (b : body) (w : World) : send_result :=
  match chans w !! c with
  | None => SendBlocks                     (* a nil channel *)
  | Some ch =>
      if closed ch then SendPanics
      else if receiving ch then
        Sent (set_chans (<[c := mkChan false (Some b) false]>) w)
      else SendBlocks
  end.

(** [ev <- e] on a [chan Event]; the user is taken to be receiving. *)
Definition event_send (c : nat) (e : Event.t) (w : World) : World :=
  set_event_chans (alter (fun ch => mkEventChan (sent ch ++ [e]) (ev_closed ch)) c) w.

(** ** The id allocator (transport.go, [identify]) *)

(** One turn of the loop, up to the blocking send: return when the context
    is done, otherwise offer [id] on [s.idCh]. *)
Definition identify (ctx_done : bool) (g : ident) : ident :=
  match g with
  | AtLoop id => if ctx_done then Exited else Sending id
  | _ => g
  end.

(** A receive [<-s.idCh]: the receiver gets the offered id, the goroutine
    does [id++] and is back at the head of its loop. *)
Definition idCh_recv (g : ident) : option (Z * ident) :=
  match g with
  | Sending id => Some (id, AtLoop (GoInt.wrap (id + 1)))
  | _ => None
  end.

(** The ids successive receives on [s.idCh] get.  Receivers may be any
    goroutines in any order: a receive is one indivisible hand-over, so the
    receives form a sequence whatever the interleaving.  [ctxs] tells, for
    each turn of the loop, whether the context of [identify] was done. *)
Fixpoint ids_from (ctxs : list bool) (g : ident) : list Z :=
  match ctxs with
  | [] => []
  | ctx_done :: ctxs' =>
      match idCh_recv (identify ctx_done g) with
      | Some (id, g') => id :: ids_from ctxs' g'
      | None => []
      end
  end.

(** [identify] starts with [id := 1]. *)
Definition allocated (ctxs : list bool) : list Z := ids_from ctxs (AtLoop 1).

(** The receivers, in the order the scheduler serves them, each with the
    id it got. *)
Definition handed_out {C : Type} (callers : list C) : list (C * Z) :=
  zip callers (allocated (List.map (fun _ => false) callers)).

(** ** Writing a request (transport.go, [writeRequest]) *)

Inductive write_result : Type :=
| WriteBlocks                                   (* neither case of the select is ready *)
| WriteReturns (err : option error) (w : World).

Definition ws_WriteMessage (req : Request.t) (w : World) : option error * World :=
  if ws_closed (ws w) then (Some ws_write_error, w)
  else (None, set_ws (fun c => mkConn (inbound c) (written c ++ [req]) (ws_closed c)) w).

(** [pick_ctx] is the scheduler's choice when both cases of the select are
    ready.  The parameters the package passes (strings and string maps)
    always marshal, so [json.Marshal] has no error branch here. *)
Definition writeRequest (ctx_done pick_ctx : bool) (method : Method)
    (params : list json) (respCh : nat) (w : World) : write_result :=
  match idCh_recv (idCh w) with
  | None => if ctx_done then WriteReturns (Some ctx_Err) w else WriteBlocks
  | Some (id, g) =>
      if ctx_done && pick_ctx then WriteReturns (Some ctx_Err) w
      else
        let req := Request.mk rpc method id params in
        let w1 := set_Map (insert (KInt (Request.ID req)) (chan_bytes respCh)) (set_idCh g w) in
        match ws_WriteMessage req w1 with
        | (Some err, w2) =>
            WriteReturns
              (Some (Errorf_wrap "writing %s request failed (%d): %w"
                       [ArgStr method; ArgInt (Request.ID req)] err)) w2
        | (None, w2) => WriteReturns None w2
        end
  end.

(** ** The connection reader (transport.go, [read]) *)

Inductive read_result : Type :=
| ReadLoops (msgCh : list body) (w : World)     (* on to the next turn of the loop *)
| ReadReturns (err : error) (w : World)
| ReadBlocks
| ReadPanics.

Definition msgCh_cap : nat := 10.

(** The deferred [s.ws.Close()]. *)
Definition ws_Close (w : World) : World :=
  set_ws (fun c => mkConn (inbound c) (written c) true) w.

(** The key a decoded frame is looked up under. *)
Definition route_key (d : decResp.t) : key :=
  if decResp.ID d =? 0 then KString (decResp.Subscription (decResp.Params d))
  else KInt (decResp.ID d).

(** [msgCh <- body]. *)
Definition msgCh_send (b : body) (msgCh : list body) (w : World) : read_result :=
  if (length msgCh <? msgCh_cap)%nat then ReadLoops (msgCh ++ [b]) w else ReadBlocks.

(** One turn of the [for] loop of [read]; [msgCh] is its buffered channel. *)
Definition read_step (ctx_done pick_ctx : bool) (msgCh : list body) (w : World) : read_result :=
  match msgCh with
  | b :: msgCh' =>
      if ctx_done && pick_ctx then ReadReturns ctx_Err (ws_Close w)
      else
        let '(d, ok) := Unmarshal_into b (zero : decResp.t) in
        if negb ok then ReadReturns json_error (ws_Close w)
        else
          match Map w !! route_key d with
          | None => msgCh_send b msgCh' w
          | Some (chan_bytes toRCh) =>
              match chan_send toRCh b w with
              | Sent w' => ReadLoops msgCh' w'
              | SendBlocks => ReadBlocks
              | SendPanics => ReadPanics
              end
          | Some _ => msgCh_send b msgCh' w
          end
  | [] =>
      if ctx_done then ReadReturns ctx_Err (ws_Close w)
      else
        if ws_closed (ws w) then ReadReturns ws_read_error (ws_Close w)
        else
          match inbound (ws w) with
          | [] => ReadBlocks
          | ws_failure :: _ => ReadReturns ws_read_error (ws_Close w)
          | ws_message msg :: rest =>
              msgCh_send msg []
                (set_ws (fun c => mkConn rest (written c) (ws_closed c)) w)
          end
  end.

(** [n] turns of the loop under a live context. *)
Fixpoint read (n : nat) (msgCh : list body) (w : World) : read_result :=
  match n with
  | O => ReadLoops msgCh w
  | S n' =>
      match read_step false false msgCh w with
      | ReadLoops msgCh' w' => read n' msgCh' w'
      | r => r
      end
  end.

(** ** One-shot calls *)

(** The common opening of every call: make the response channel, write the
    request and, when that went well, block on the channel. *)
Inductive call_result : Type :=
| CallBlocks
| CallFails (err : error) (respCh : nat) (w : World)
| CallWaits (respCh : nat) (w : World).

Definition call (ctx_done pick_ctx : bool) (method : Method) (params : list json)
    (w : World) : call_result :=
  let '(respCh, w1) := make_chan w in
  match writeRequest ctx_done pick_ctx method params respCh w1 with
  | WriteBlocks => CallBlocks
  | WriteReturns (Some err) w2 => CallFails err respCh w2
  | WriteReturns None w2 => CallWaits respCh (block_on respCh w2)
  end.

(** The [select] between [<-respCh] and [<-ctx.Done()].  A value handed
    over by the reader settles it; with none, a done context does. *)
Inductive select_result : Type :=
| SelectBlocks
| SelectBody (b : body) (w : World)
| SelectDone (w : World).

Definition unblock (c : nat) (w : World) : World :=
  set_chans (alter (fun ch => mkChan false None (closed ch)) c) w.

Definition select_respCh (ctx_done : bool) (respCh : nat) (w : World) : select_result :=
  match chans w !! respCh with
  | Some (mkChan _ (Some b) _) => SelectBody b (unblock respCh w)
  | _ => if ctx_done then SelectDone (unblock respCh w) else SelectBlocks
  end.

(** What a call does once it is past its select. *)
Inductive ret (A : Type) : Type :=
| Blocks
| Returns (a : A) (w : World).
Arguments Blocks {A}.
Arguments Returns {A}.

(** Every one-shot call of the package has the same shape: open the call,
    wait in the select, turn the reply into the result.  While the caller
    is blocked the other goroutines run: [others] is what they do to the
    world in the meantime and [ctx_done'] whether the caller's context is
    done by then.  [deferred_close] is the [defer close(respCh)] some of
    the calls have. *)
Definition one_shot {A : Type} (deferred_close : bool) (method : Method)
    (params : list json) (failed : error -> A) (reply : body -> A)
    (ctx_done pick_ctx : bool) (others : World -> World) (ctx_done' : bool)
    (w : World) : ret A :=
  let finish (respCh : nat) (w : World) :=
    if deferred_close then close_chan respCh w else w in
  match call ctx_done pick_ctx method params w with
  | CallBlocks => Blocks
  | CallFails err respCh w1 => Returns (failed err) (finish respCh w1)
  | CallWaits respCh w1 =>
      match select_respCh ctx_done' respCh (others w1) with
      | SelectBlocks => Blocks
      | SelectDone w2 => Returns (failed ctx_Err) (finish respCh w2)
      | SelectBody b w2 => Returns (reply b) (finish respCh w2)
      end
  end.

Definition filesystemWrite : Method := "filesystem_write".
Definition filesystemRead : Method := "filesystem_read".
Definition filesystemList : Method := "filesystem_list".
Definition filesystemRemove : Method := "filesystem_remove".
Definition filesystemMakeDir : Method := "filesystem_makeDir".
Definition filesystemReadBytes : Method := "filesystem_readBase64".
Definition filesystemWriteBytes : Method := "filesystem_writeBase64".
Definition filesystemSubscribe : Method := "filesystem_subscribe".
Definition processSubscribe : Method := "process_subscribe".
Definition processUnsubscribe : Method := "process_unsubscribe".
Definition processStart : Method := "process_start".
Definition notebookExecCell : Method := "notebook_execCell".

(** [Mkdir]. *)
Definition Mkdir_reply (b : body) : option error :=
  match decodeResponse string APIError.t b with
  | Err err => Some (Errorf_wrap "failed to mkdir: %w" [] err)
  | Ok resp =>
      if negb (APIError.Code (Response.Error resp) =? 0) then
        Some (Errorf "failed to write to file: %s"
                [ArgStr (APIError.Message (Response.Error resp))])
      else None
  end.

Definition Mkdir (path : string) :=
  one_shot false filesystemMakeDir [JStr path] Some Mkdir_reply.

(** [Ls]. *)
Definition Ls_reply (b : body) : list LsResult.t * option error :=
  match decodeResponse (list LsResult.t) string b with
  | Err err => ([], Some err)
  | Ok res => (Response.Result res, None)
  end.

Definition Ls (path : string) :=
  one_shot true filesystemList [JStr path] (fun err => ([], Some err)) Ls_reply.

(** [Read]. *)
Definition Read_reply (b : body) : string * option error :=
  match decodeResponse string string b with
  | Err err => ("", Some err)
  | Ok res =>
      if negb (bool_decide (Response.Error res = "")) then
        ("", Some (Errorf "failed to read file: %s" [ArgStr (Response.Error res)]))
      else (Response.Result res, None)
  end.

Definition Read (path : string) :=
  one_shot false filesystemRead [JStr path] (fun err => ("", Some err)) Read_reply.

(** [Write]: the reply is unmarshalled into a throw-away [Request]. *)
Definition Write_reply (resp : body) : option error :=
  let '(_, ok) := Unmarshal_into resp (zero : Request.t) in
  if negb ok then Some json_error else None.

Definition Write (path : string) (data : string) :=
  one_shot false filesystemWrite [JStr path; JStr data] Some Write_reply.

Section Base64.
(** [encoding/base64]'s standard encoding, from outside the package. *)
Variable EncodeToString : string -> string.
Variable DecodeString : string -> option string.

(** [WriteBytes]. *)
Definition WriteBytes (path : string) (data : string) :=
  one_shot false filesystemWriteBytes [JStr path; JStr (EncodeToString data)]
    Some Write_reply.

(** [ReadBytes]. *)
Definition ReadBytes_reply (b : body) : string * option error :=
  match decodeResponse string string b with
  | Err err => ("", Some err)
  | Ok res =>
      match DecodeString (Response.Result res) with
      | None => ("", Some base64_error)
      | Some sDec => (sDec, None)
      end
  end.

Definition ReadBytes (path : string) :=
  one_shot true filesystemReadBytes [JStr path] (fun err => ("", Some err))
    ReadBytes_reply.
End Base64.

Section Notebook.
(** [ExecCell]; the shape of an [Execution] plays no part here. *)
Context {Execution : Type} `{Unmarshal Execution}.

Definition ExecCell_reply (b : body) : option Execution * option error :=
  match decodeResponse Execution APIError.t b with
  | Err err => (None, Some err)
  | Ok res =>
      if negb (APIError.Code (Response.Error res) =? 0) then
        (None, Some (Errorf "notebook execution failed (%d): %s"
                       [ArgInt (APIError.Code (Response.Error res));
                        ArgStr (APIError.Message (Response.Error res))]))
      else (Some (Response.Result res), None)
  end.

Definition ExecCell (code : string) :=
  one_shot false notebookExecCell [JStr code] (fun err => (None, Some err))
    ExecCell_reply.
End Notebook.

(** ** Processes *)

Record Process : Type := mkProcess {
  id : string;                               (* process id *)
  cmd : string;
  Cwd : string;
  Env : option (list (string * string))      (* nil, or the variables in key order *)
}.

Definition ProcessEvents := string.
Definition OnStdout : ProcessEvents := "onStdout".
Definition OnStderr : ProcessEvents := "onStderr".
Definition OnExit : ProcessEvents := "onExit".

Definition charset : string :=
  "abcdefghijklmnopqrstuvwxyzABCDEFGHIJKLMNOPQRSTUVWXYZ0123456789".

(** [NewProcess]: twelve characters drawn from [charset] make the id;
    [Intn i] is the [i]-th result of [rand.Intn(len(charset))]. *)
Definition random_id (Intn : nat -> nat) : string :=
  string_of_list_ascii
    (List.map (fun i => default "a"%char
                          (String.get (Intn i mod String.length charset) charset))
              (seq 0 12)).

Definition NewProcess (Intn : nat -> nat) (sandbox_Cwd : string) (command : string)
    (opts : list (Process -> Process)) : Process :=
  let proc :=
    fold_left (fun p opt => opt p) opts (mkProcess (random_id Intn) command "" None) in
  if bool_decide (Cwd proc = "") then mkProcess (id proc) (cmd proc) sandbox_Cwd (Env proc)
  else proc.

Definition json_of_env (env : list (string * string)) : json :=
  JObj (List.map (fun kv => (fst kv, JStr (snd kv))) env).

(** [Start]. *)
Definition Start_env (p : Process) : list (string * string) :=
  match Env p with
  | None => [("PYTHONUNBUFFERED", "1")]
  | Some env => env
  end.

Definition Start_reply (p : Process) (b : body) : option error :=
  match decodeResponse string APIError.t b with
  | Err err => Some err
  | Ok res =>
      if negb (APIError.Code (Response.Error res) =? 0) then
        Some (Errorf "process start failed(%d): %s"
                [ArgInt (APIError.Code (Response.Error res));
                 ArgStr (APIError.Message (Response.Error res))])
      else if bool_decide (Response.Result res = "") then
        Some (Errorf "process start failed got empty result id" [])
      else if negb (bool_decide (id p = Response.Result res)) then
        Some (Errorf "process start failed got wrong result id; want %s, got %s"
                [ArgStr (id p); ArgStr (Response.Result res)])
      else None
  end.

Definition Start (p : Process) :=
  one_shot false processStart
    [JStr (id p); JStr (cmd p); json_of_env (Start_env p); JStr (Cwd p)]
    Some (Start_reply p).

(** [Done]: the entry under the process id, asserted to be a
    [<-chan struct{}]; the assertion panics on any other type. *)
Inductive Done_result : Type :=
| Done_nil
| Done_chan (c : nat)
| Done_panics.

Definition Done (p : Process) (w : World) : Done_result :=
  match Map w !! KString (id p) with
  | None => Done_nil
  | Some (chan_recv_unit rCh) => Done_chan rCh
  | Some _ => Done_panics
  end.

(** ** Process event subscriptions ([subscribe]) *)

(** Where the goroutine of [subscribe] stands. *)
Inductive sub_at : Type :=
| Requesting                       (* in the [<-respCh] for the acknowledgment *)
| Active (token : string)          (* in the select of the event loop *)
| Leaving (token : string)         (* past the loop, in the [writeRequest] that unsubscribes *)
| Unsubscribing (token : string)   (* in the [<-respCh] for the unsubscribe reply *)
| Returned
| Panicked.

Record subscription : Type := mkSub {
  sub_respCh : nat;
  sub_events : nat;                (* the [events] channel handed to the caller *)
  sub_errs : list error;           (* what was sent on [errs] *)
  sub_at_ : sub_at
}.

Definition sub_move (at_ : sub_at) (s : subscription) : subscription :=
  mkSub (sub_respCh s) (sub_events s) (sub_errs s) at_.

Definition sub_err (err : error) (s : subscription) : subscription :=
  mkSub (sub_respCh s) (sub_events s) (sub_errs s ++ [err]) (sub_at_ s).

(** From the call of [subscribe] to the first blocking receive. *)
Definition subscribe (ctx_done pick_ctx : bool) (p : Process) (event : ProcessEvents)
    (w : World) : option (subscription * World) :=
  let '(events, w0) := make_event_chan w in
  let '(respCh, w1) := make_chan w0 in
  let s := mkSub respCh events [] Requesting in
  match writeRequest ctx_done pick_ctx processSubscribe [JStr event; JStr (id p)] respCh w1 with
  | WriteBlocks => None
  | WriteReturns (Some err) w2 => Some (sub_err err s, block_on respCh w2)
  | WriteReturns None w2 => Some (s, block_on respCh w2)
  end.

(** [SubscribeStdout], [SubscribeStderr] and [SubscribeExit]. *)
Definition SubscribeStdout (ctx_done pick_ctx : bool) (p : Process) :=
  subscribe ctx_done pick_ctx p OnStdout.
Definition SubscribeStderr (ctx_done pick_ctx : bool) (p : Process) :=
  subscribe ctx_done pick_ctx p OnStderr.
Definition SubscribeExit (ctx_done pick_ctx : bool) (p : Process) :=
  subscribe ctx_done pick_ctx p OnExit.

(** A receive on [respCh]: the value handed over, or the zero value of a
    closed channel. *)
Definition chan_recv (c : nat) (w : World) : option (body * World) :=
  match chans w !! c with
  | Some (mkChan _ (Some b) _) => Some (b, unblock c w)
  | Some (mkChan _ None true) => Some (nil_body, w)
  | _ => None
  end.

(** The deferred [close(respCh)] when the goroutine unwinds. *)
Definition sub_unwind (at_ : sub_at) (s : subscription) (w : World) : subscription * World :=
  (sub_move at_ s, close_chan (sub_respCh s) w).

(** Entering the select of the event loop: its channel operands are
    evaluated, [p.Done()] among them, and the goroutine blocks.  A nil
    channel is never ready, and nothing in the package makes or closes a
    [chan struct{}], so the third case takes no part after this. *)
Definition sub_select (p : Process) (token : string) (s : subscription)
    (w : World) : subscription * World :=
  match Done p w with
  | Done_panics => sub_unwind Panicked s w
  | _ => (sub_move (Active token) s, block_on (sub_respCh s) w)
  end.

(** One step of the goroutine, from one blocking point to the next;
    [None] when it stays blocked.  A failed decode leaves a nil response,
    and reading its field panics. *)
Definition subscribe_step (ctx_done : bool) (p : Process) (s : subscription)
    (w : World) : option (subscription * World) :=
  match sub_at_ s with
  | Requesting =>
      match chan_recv (sub_respCh s) w with
      | None => None
      | Some (b, w1) =>
          match decodeResponse string json b with
          | Err err => Some (sub_unwind Panicked (sub_err err s) w1)
          | Ok res =>
              let token := Response.Result res in
              Some (sub_select p token s
                      (set_Map (insert (KString token) (chan_bytes (sub_respCh s))) w1))
          end
      end
  | Active token =>
      match chan_recv (sub_respCh s) w with
      | Some (eventBd, w1) =>
          let '(event, _) := Unmarshal_into eventBd (zero : Event.t) in
          if negb (bool_decide (Event.Error event = "")) then
            Some (sub_select p token s w1)
          else
            Some (sub_select p token s (event_send (sub_events s) event w1))
      | None =>
          if ctx_done then
            Some (sub_move (Leaving token) s, set_Map (delete (KString token)) w)
          else None
      end
  | Leaving token =>
      match writeRequest false false processUnsubscribe [JStr token] (sub_respCh s) w with
      | WriteBlocks => None
      | WriteReturns _ w1 => Some (sub_move (Unsubscribing token) s, block_on (sub_respCh s) w1)
      end
  | Unsubscribing token =>
      match chan_recv (sub_respCh s) w with
      | None => None
      | Some (b, w1) =>
          match decodeResponse bool string b with
          | Err _ => Some (sub_unwind Panicked s w1)
          | Ok unsubRes => Some (sub_unwind Returned s w1)
          end
      end
  | Returned => None
  | Panicked => None
  end.

(** ** Directory watching ([Watch]) *)

(** The goroutine [Watch] leaves behind, reading [respCh] and feeding [eCh]. *)
Record watcher : Type := mkWatcher {
  watch_path : string;
  watch_respCh : nat;
  watch_eCh : nat
}.

(** [Watch] from its [<-respCh] to its return; that receive takes no
    context.  The deferred [close(respCh)] runs on every way out. *)
Definition Watch_ack (path : string) (eCh respCh : nat) (w : World)
    : ret (option error * option watcher) :=
  match chan_recv respCh w with
  | None => Blocks
  | Some (b, w1) =>
      match decodeResponse string string b with
      | Err err => Returns (Some err, None) (close_chan respCh w1)
      | Ok res =>
          Returns (None, Some (mkWatcher path respCh eCh))
            (close_chan respCh
               (set_Map (insert (KString (Response.Result res)) (chan_send_Event eCh)) w1))
      end
  end.

(** [Watch]; [others] is what the other goroutines do while it is blocked. *)
Definition Watch (ctx_done pick_ctx : bool) (path : string) (eCh : nat)
    (others : World -> World) (w : World) : ret (option error * option watcher) :=
  match call ctx_done pick_ctx filesystemSubscribe [JStr "watchDir"; JStr path] w with
  | CallBlocks => Blocks
  | CallFails err respCh w1 => Returns (Some err, None) (close_chan respCh w1)
  | CallWaits respCh w1 => Watch_ack path eCh respCh (others w1)
  end.

(** One turn of the loop of the goroutine. *)
Inductive watch_result : Type :=
| WatchLoops (w : World)
| WatchReturns (w : World)
| WatchBlocks.

Definition Watch_step (ctx_done : bool) (g : watcher) (w : World) : watch_result :=
  if ctx_done then WatchReturns w
  else
    match chan_recv (watch_respCh g) w with
    | None => WatchBlocks
    | Some (b, w1) =>
        let '(event, ok) := Unmarshal_into b (zero : Event.t) in
        if negb ok then WatchReturns w1
        else if negb (bool_decide (Event.Error event = "")) then WatchReturns w1
        else if negb (bool_decide (EventParams.Subscription (Event.Params event) = watch_path g))
        then WatchLoops w1
        else WatchLoops (event_send (watch_eCh g) event w1)
    end.

(** ** Worlds, frames and predicates the statements are about *)

(** What [read] found out about a frame that decodes. *)
Definition decodes_to (b : body) (d : decResp.t) : Prop :=
  Unmarshal_into b (zero : decResp.t) = (d, true).

(** [c] is an open channel whose maker is blocked receiving on it. *)
Definition awaited (c : nat) (w : World) : Prop :=
  chans w !! c = Some (mkChan true None false).

(** The world after the reader handed [b] over on [c]. *)
Definition delivered (c : nat) (b : body) (w : World) : World :=
  set_chans (<[c := mkChan false (Some b) false]>) w.

(** A pending call: a nonzero id registered with its own response channel,
    on which the caller is blocked. *)
Definition pending (w : World) (call : Z * nat) : Prop :=
  call.1 <> 0 /\ Map w !! KInt call.1 = Some (chan_bytes call.2) /\ awaited call.2 w.

(** [b] is a reply to [call]: it decodes and carries the call's id. *)
Definition reply_to (b : body) (call : Z * nat) : Prop :=
  exists d, decodes_to b d /\ decResp.ID d = call.1.

(** The caller of [call] finds exactly [b] in its select. *)
Definition receives (w : World) (b : body) (call : Z * nat) : Prop :=
  forall ctx_done, select_respCh ctx_done call.2 w = SelectBody b (unblock call.2 w).

(** The loop of [identify] takes a turn. *)
Definition identify_turn (ctx_done : bool) (w : World) : World :=
  set_idCh (identify ctx_done (idCh w)) w.

Definition reply (id : Z) (result : json) : body :=
  Doc (JObj [("id", JInt id); ("result", result); ("error", JStr "")]).

Definition two_calls : World :=
  let w0 := identify_turn false (NewSandbox [ws_message (reply 2 (JStr "two"));
                                             ws_message (reply 1 (JStr "one"))]) in
  match call false false filesystemRead [JStr "a.txt"] w0 with
  | CallWaits _ w1 =>
      match call false false filesystemRead [JStr "b.txt"] (identify_turn false w1) with
      | CallWaits _ w2 => w2
      | _ => w1
      end
  | _ => w0
  end.

(** One call in flight: [Read] got id 1, registered channel 0 and waits. *)
Definition one_call (peer : list ws_event) : World :=
  let w0 := identify_turn false (NewSandbox peer) in
  match call false false filesystemRead [JStr "a.txt"] w0 with
  | CallWaits _ w1 => w1
  | _ => w0
  end.

Definition garbage : body := NotJSON "}{".

(** A pushed event for a subscription nobody holds. *)
Definition stray_event : body :=
  Doc (JObj [("params", JObj [("subscription", JStr "sub-gone");
                              ("result", JObj [("line", JStr "late")])])]).

(** No reply has been handed over on [c]. *)
Definition no_reply (c : nat) (w : World) : Prop :=
  match chans w !! c with
  | Some ch => handed ch = None
  | None => True
  end.

(** The world a call leaves when it opens with id [id]. *)
Definition opened (method : Method) (params : list json) (id : Z) (w : World) : World :=
  block_on (next_chan w)
    (set_ws (fun c => mkConn (inbound c) (written c ++ [Request.mk rpc method id params])
                        (ws_closed c))
       (set_Map (insert (KInt id) (chan_bytes (next_chan w)))
          (set_idCh (AtLoop (GoInt.wrap (id + 1))) (make_chan w).2))).

Definition sandbox_ready : World := identify_turn false (NewSandbox []).

(** The reader runs [n] turns while a caller is blocked. *)
Definition reader_runs (n : nat) (w : World) : World :=
  match read n [] w with
  | ReadLoops _ w' => w'
  | _ => w
  end.

(** A reply to request [id] refusing it, with the error as an object. *)
Definition refusal (id : Z) (code : Z) (message : string) : body :=
  Doc (JObj [("id", JInt id);
             ("error", JObj [("code", JInt code); ("message", JStr message)])]).

(** The same with the error as a string, the shape [Ls] and [Read] decode. *)
Definition refusal_text (id : Z) (result : json) (message : string) : body :=
  Doc (JObj [("id", JInt id); ("result", result); ("error", JStr message)]).

Definition proc : Process := NewProcess (fun i => i) "/" "sleep 5" [].

(** A pushed event. *)
Definition push (id_ : Z) (subscription_ : string) (error_ : string) (line : string) : body :=
  Doc (JObj [("id", JInt id_); ("error", JStr error_);
             ("params", JObj [("subscription", JStr subscription_);
                              ("result", JObj [("type", JStr "Stdout");
                                               ("line", JStr line)])])]).

(** [subscribe] on a fresh sandbox whose peer will send [peer]; the
    acknowledgment is the first frame. *)
Definition subscribed (peer : list body) : option (subscription * World) :=
  match subscribe false false proc OnStdout
          (identify_turn false (NewSandbox (ws_message <$> peer))) with
  | None => None
  | Some (s, w) => subscribe_step false proc s (reader_runs 2 w)
  end.


(** Whether the event channel [c] is closed. *)
Definition event_chan_closed (c : nat) (w : World) : option bool :=
  ev_closed <$> event_chans w !! c.

(** The world after the request that unsubscribes [token] went out with
    id [id_]. *)
Definition unsubscribe_written (respCh : nat) (token : string) (id_ : Z) (w : World) : World :=
  block_on respCh
    (set_ws (fun c => mkConn (inbound c)
                        (written c ++ [Request.mk rpc processUnsubscribe id_ [JStr token]])
                        (ws_closed c))
       (set_Map (insert (KInt id_) (chan_bytes respCh))
          (set_idCh (AtLoop (GoInt.wrap (id_ + 1))) w))).

(** The subscription of the test, blocked in its event loop, and the
    reply the peer will give to the unsubscribe request. *)
Definition active_subscription : World :=
  match subscribed [reply 1 (JStr "sub-1"); reply 2 (JBool true)] with
  | Some (_, w) => w
  | None => NewSandbox []
  end.

Definition test_sub (at_ : sub_at) : subscription := mkSub 1 0 [] at_.

(** [Watch] on a sandbox whose peer acknowledges with token w-1; the
    caller made the event channel 0. *)
Definition watched : ret (option error * option watcher) :=
  Watch false false "/tmp" 0 (reader_runs 2)
    (make_event_chan (identify_turn false (NewSandbox [ws_message (reply 1 (JStr "w-1"))]))).2.

(** The operations of the package on the shared state, one goroutine
    moving from one blocking point to the next.  The local state of a
    subscription goroutine comes with its step. *)
Inductive action : Type :=
| Identify (ctx_done : bool)
| ReadTurn (ctx_done pick_ctx : bool)
| OpenCall (ctx_done pick_ctx : bool) (method : Method) (params : list json)
| Select (ctx_done : bool) (respCh : nat)
| Close (c : nat)
| MakeEventChan
| Subscribe (ctx_done pick_ctx : bool) (p : Process) (event : ProcessEvents)
| SubscribeStep (ctx_done : bool) (p : Process) (s : subscription)
| WatchAck (path : string) (eCh respCh : nat)
| WatchTurn (ctx_done : bool) (g : watcher).

(** The shared state together with the [msgCh] of the reader. *)
Definition config : Type := World * list body.

(** [exec a cfg] is [None] when the goroutine cannot move. *)
Definition exec (a : action) (cfg : config) : option config :=
  let '(w, msgCh) := cfg in
  match a with
  | Identify ctx_done => Some (identify_turn ctx_done w, msgCh)
  | ReadTurn ctx_done pick_ctx =>
      match read_step ctx_done pick_ctx msgCh w with
      | ReadLoops msgCh' w' => Some (w', msgCh')
      | ReadReturns _ w' => Some (w', [])
      | _ => None
      end
  | OpenCall ctx_done pick_ctx method params =>
      match call ctx_done pick_ctx method params w with
      | CallWaits _ w' => Some (w', msgCh)
      | CallFails _ _ w' => Some (w', msgCh)
      | CallBlocks => None
      end
  | Select ctx_done respCh =>
      match select_respCh ctx_done respCh w with
      | SelectBody _ w' => Some (w', msgCh)
      | SelectDone w' => Some (w', msgCh)
      | SelectBlocks => None
      end
  | Close c => Some (close_chan c w, msgCh)
  | MakeEventChan => Some ((make_event_chan w).2, msgCh)
  | Subscribe ctx_done pick_ctx p event =>
      match subscribe ctx_done pick_ctx p event w with
      | Some (_, w') => Some (w', msgCh)
      | None => None
      end
  | SubscribeStep ctx_done p s =>
      match subscribe_step ctx_done p s w with
      | Some (_, w') => Some (w', msgCh)
      | None => None
      end
  | WatchAck path eCh respCh =>
      match Watch_ack path eCh respCh w with
      | Returns _ w' => Some (w', msgCh)
      | Blocks => None
      end
  | WatchTurn ctx_done g =>
      match Watch_step ctx_done g w with
      | WatchLoops w' => Some (w', msgCh)
      | WatchReturns w' => Some (w', msgCh)
      | WatchBlocks => None
      end
  end.

(** The token an action takes from an acknowledgment and stores: the
    result of the frame [subscribe] or [Watch] receives for its request. *)
Definition acknowledged (a : action) (cfg : config) : list string :=
  match a with
  | SubscribeStep _ _ s =>
      match sub_at_ s, chan_recv (sub_respCh s) cfg.1 with
      | Requesting, Some (b, _) =>
          match decodeResponse string json b with
          | Ok res => [Response.Result res]
          | Err _ => []
          end
      | _, _ => []
      end
  | WatchAck _ _ respCh =>
      match chan_recv respCh cfg.1 with
      | Some (b, _) =>
          match decodeResponse string string b with
          | Ok res => [Response.Result res]
          | Err _ => []
          end
      | None => []
      end
  | _ => []
  end.

(** A run of the package: any interleaving of the operations.  It yields
    the final configuration and the tokens acknowledged on the way. *)
Fixpoint run (acts : list action) (cfg : config) : option (config * list string) :=
  match acts with
  | [] => Some (cfg, [])
  | a :: acts' =>
      match exec a cfg with
      | None => None
      | Some cfg' =>
          match run acts' cfg' with
          | None => None
          | Some (cfg'', tokens) => Some (cfg'', acknowledged a cfg ++ tokens)
          end
      end
  end.

(** How one operation can change the routing table. *)
Inductive Map_change (tokens : list string) (M M' : gmap key mapval) : Prop :=
| Map_same : M' = M -> Map_change tokens M M'
| Map_request (id_ : Z) (c : nat) :
    M' = <[KInt id_ := chan_bytes c]> M -> Map_change tokens M M'
| Map_token (token : string) (v : mapval) :
    token ∈ tokens -> (forall c, v <> chan_recv_unit c) ->
    M' = <[KString token := v]> M -> Map_change tokens M M'
| Map_delete (k : key) : M' = delete k M -> Map_change tokens M M'.

(** An entry is in order when its value is not a [<-chan struct{}] and,
    under a string key, the key is one of the strings [T]. *)
Definition entry_ok (T : string -> Prop) (k : key) (v : mapval) : Prop :=
  (forall c, v <> chan_recv_unit c) /\
  match k with KString s => T s | KInt _ => True end.

Definition Map_ok (T : string -> Prop) (M : gmap key mapval) : Prop :=
  forall k v, M !! k = Some v -> entry_ok T k v.

(** The run in which a process is started and the peer acknowledges. *)
Definition start_acts : list action :=
  [Identify false;
   OpenCall false false processStart
     [JStr (id proc); JStr (cmd proc); json_of_env (Start_env proc); JStr (Cwd proc)];
   ReadTurn false false; ReadTurn false false;
   Select false 0].

Definition start_peer : list ws_event := [ws_message (reply 1 (JStr (id proc)))].

Definition started : World :=
  match run start_acts (NewSandbox start_peer, []) with
  | Some ((w, _), _) => w
  | None => NewSandbox []
  end.

(** The run in which the peer acknowledges a subscription of the process
    with the process id as the token. *)
Definition collide_acts : list action :=
  [Identify false;
   Subscribe false false proc OnStdout;
   ReadTurn false false; ReadTurn false false;
   SubscribeStep false proc (mkSub 1 0 [] Requesting)].

Definition collided : World :=
  match run collide_acts (NewSandbox start_peer, []) with
  | Some ((w, _), _) => w
  | None => NewSandbox []
  end.

(** ** Further operations and predicates *)

(** The reply with which the peer accepts the start of [proc]. *)
Definition accepting_peer : list ws_event :=
  [ws_message (Doc (JObj [("id", JInt 1); ("result", JStr (id proc))]))].

(** The request ids registered in [M] are still registered in [M']. *)
Definition ids_kept (M M' : gmap key mapval) : Prop :=
  forall n, is_Some (M !! KInt n) -> is_Some (M' !! KInt n).

(** What the deferred close of a call leaves of its channel. *)
Definition left_chan (deferred_close : bool) : Chan := mkChan false None deferred_close.

(** [identify] found its context done before anything was asked of it. *)
Definition cancelled_sandbox : World := identify_turn true (NewSandbox []).

(** [Ls] was cancelled while waiting for the reply to request 1. *)
Definition Ls_cancelled : World :=
  match Ls "." false false (fun w => w) true sandbox_ready with
  | Returns _ w => w
  | Blocks => sandbox_ready
  end.

(** The reader has returned on a socket failure; [identify] offers id 1. *)
Definition reader_gone : World :=
  match read_step false false [] (identify_turn false (NewSandbox [ws_failure])) with
  | ReadReturns _ w => w
  | _ => NewSandbox []
  end.

(** Calls opened one after the other, [identify] taking its turn before
    each; [None] when one of them does not get as far as its select. *)
Fixpoint open_calls (reqs : list (Method * list json)) (w : World) : option World :=
  match reqs with
  | [] => Some w
  | (method, params) :: reqs' =>
      match call false false method params (identify_turn false w) with
      | CallWaits _ w' => open_calls reqs' w'
      | _ => None
      end
  end.

(** The requests of [reqs] as they go out when the first gets id [id_]. *)
Definition requests_from (id_ : Z) (reqs : list (Method * list json)) : list Request.t :=
  imap (fun i r => Request.mk rpc r.1 (id_ + Z.of_nat i) r.2) reqs.

(** The calls of a fresh sandbox: the [i]-th gets id [1 + i] and channel [i]. *)
Definition fresh_calls (n : nat) : list (Z * nat) :=
  (fun i => (1 + Z.of_nat i, i)) <$> seq 0 n.

(** A subscription in its event loop, served by the reader: [n] times the
    reader takes a frame off the socket and hands it over, and the
    goroutine of [subscribe] deals with it. *)
Fixpoint rounds (p : Process) (n : nat) (s : subscription) (w : World)
    : option (subscription * World) :=
  match n with
  | O => Some (s, w)
  | S n' =>
      match subscribe_step false p s (reader_runs 2 w) with
      | Some (s', w') => rounds p n' s' w'
      | None => None
      end
  end.

(** The event the loop of [subscribe] makes of a frame; the error of
    [json.Unmarshal] is dropped there. *)
Definition event_of (b : body) : Event.t := (Unmarshal_into b (zero : Event.t)).1.

(** [b] is a pushed frame for [token]: it decodes, has no id and names
    [token] as its subscription. *)
Definition pushed_to (token : string) (b : body) : Prop :=
  exists d, decodes_to b d /\ decResp.ID d = 0 /\
            decResp.Subscription (decResp.Params d) = token.

(** ** Executions (the code interpreter file) *)

(** [Result]; [Data] is a map that may be nil. *)
Module Result.
Record t := mk {
  IsMainResult : bool;
  Data : option (gmap string string);
  Formats : list string
}.

(** [Text]. *)
Definition Text (r : t) : string :=
  match Data r with
  | None => ""
  | Some data => default "" (data !! "text/plain")
  end.
End Result.

(** [ExecutionLogs], [ExecutionError] and [Execution]. *)
Module Execution.
Record logs := mkLogs { Stdout : list string; Stderr : list string }.
Record error_ := mkError { Name : string; Value : string; Traceback : string }.
Record t := mk {
  Results : list Result.t;
  Logs : logs;
  Error : option error_
}.

(** The loop of [Text] over the results. *)
Fixpoint first_main (results : list Result.t) : string :=
  match results with
  | [] => ""
  | r :: results' =>
      if Result.IsMainResult r then Result.Text r else first_main results'
  end.

(** [Text]. *)
Definition Text (e : t) : string := first_main (Results e).
End Execution.

(** A member of a frame that the [decResp] of [read] has no room for: an
    array as [params], a string or a fractional number as [id]. *)
Inductive misfit : string -> json -> Prop :=
| misfit_params (k : string) (items : list json) :
    key_matches "Params" k = true -> misfit k (JArr items)
| misfit_id_string (k s : string) :
    key_matches "id" k = true -> misfit k (JStr s)
| misfit_id_real (k literal : string) :
    key_matches "id" k = true -> misfit k (JReal literal).

(** Every request written so far has its id in the routing table. *)
Definition replies_routable (w : World) : Prop :=
  forall req, req ∈ written (ws w) -> is_Some (Map w !! KInt (Request.ID req)).

(** * Properties *)

(** ** Go's [int] *)

Lemma wrap_in_range (z : Z) : GoInt.min_int <= z <= GoInt.max_int -> GoInt.wrap z = z.
Proof.
  unfold GoInt.wrap, GoInt.min_int, GoInt.max_int. intros H.
  rewrite Z.mod_small; lia.
Qed.

Lemma wrap_succ (z : Z) : 0 <= z < GoInt.max_int -> GoInt.wrap (z + 1) = z + 1.
Proof.
  intros H. apply wrap_in_range. unfold GoInt.min_int, GoInt.max_int in *. lia.
Qed.

(** ** Decoding, on examples *)

Example decodeResponse_reply :
  decodeResponse string string
    (Doc (JObj [("id", JInt 3); ("result", JStr "hello"); ("error", JStr "")]))
  = Ok (Response.mk 3 "hello" "").
Proof. reflexivity. Qed.

Example decodeResponse_type_error :
  decodeResponse string string (Doc (JObj [("id", JStr "3")])) = Err json_error.
Proof. reflexivity. Qed.

(** Keys are matched under the decoder's case folding: capitals, the
    long s and the Kelvin sign included. *)
Example decodeResponse_folded_keys :
  decodeResponse string json
    (Doc (JObj [("ID", JInt 4);
                (String "r" (String "e" (String (ascii_of_nat 197) (String (ascii_of_nat 191) "ult"))),
                 JStr "hello")]))
  = Ok (Response.mk 4 "hello" JNull).
Proof. reflexivity. Qed.

Example key_matches_Kelvin :
  Json.key_matches "timestamp" "Timestamp" = true /\
  Json.key_matches "key"
    (String (ascii_of_nat 226) (String (ascii_of_nat 132) (String (ascii_of_nat 170) "EY")))
  = true /\
  Json.key_matches "result" "resu1t" = false.
Proof. repeat split; reflexivity. Qed.

Example decResp_push :
  Unmarshal_into
    (Doc (JObj [("params", JObj [("subscription", JStr "sub-1"); ("result", JObj [])])]))
    (zero : decResp.t)
  = (decResp.mk "" 0 (decResp.mkParams "sub-1"), true).
Proof. reflexivity. Qed.

Example allocated_3 : allocated [false; false; false] = [1; 2; 3].
Proof. reflexivity. Qed.

Example allocated_cancelled : allocated [false; false; true; false] = [1; 2].
Proof. reflexivity. Qed.

(** ** The id allocator *)

(** Past the largest [int] the counter wraps around; the bound in the
    statements below is that of the type. *)
Example idCh_recv_overflow :
  idCh_recv (Sending GoInt.max_int) = Some (GoInt.max_int, AtLoop GoInt.min_int).
Proof. reflexivity. Qed.

Lemma ids_from_AtLoop (ctxs : list bool) (id : Z) :
  0 < id ->
  id + Z.of_nat (length ctxs) - 1 <= GoInt.max_int ->
  exists k : nat, (k <= length ctxs)%nat /\ ids_from ctxs (AtLoop id) = seqZ id (Z.of_nat k).
Proof.
  revert id. induction ctxs as [|c ctxs IH]; intros id Hpos Hmax.
  - exists O. split; [lia | reflexivity].
  - rewrite length_cons, Nat2Z.inj_succ in Hmax.
    destruct c; cbn [ids_from identify idCh_recv].
    + exists O. split; [lia | reflexivity].
    + destruct ctxs as [|c' ctxs'].
      { exists 1%nat. split; [simpl; lia | reflexivity]. }
      rewrite length_cons, Nat2Z.inj_succ in Hmax.
      rewrite wrap_succ by lia.
      destruct (IH (id + 1)) as (k & Hk & Heq);
        [lia | rewrite length_cons; lia |].
      exists (S k). split; [simpl in *; lia |].
      rewrite Heq, (seqZ_cons id) by lia.
      f_equal. f_equal; lia.
Qed.

Lemma ids_from_live (n : nat) (id : Z) :
  0 < id ->
  id + Z.of_nat n - 1 <= GoInt.max_int ->
  ids_from (replicate n false) (AtLoop id) = seqZ id (Z.of_nat n).
Proof.
  revert id. induction n as [|n IH]; intros id Hpos Hmax; [reflexivity |].
  rewrite Nat2Z.inj_succ in Hmax.
  cbn [replicate ids_from identify idCh_recv].
  destruct n as [|n]; [reflexivity |].
  rewrite Nat2Z.inj_succ in Hmax.
  rewrite wrap_succ by lia.
  rewrite IH by lia. rewrite (seqZ_cons id) by lia.
  f_equal. f_equal; lia.
Qed.

(** A receive gets an id whenever the context of [identify] is live up to
    that turn of its loop: the receive number [i] gets [id + i]. *)
Lemma ids_from_lookup (ctxs : list bool) :
  forall (i : nat) (id : Z),
    0 < id ->
    id + Z.of_nat (length ctxs) - 1 <= GoInt.max_int ->
    (i < length ctxs)%nat ->
    Forall (fun c => c = false) (take (S i) ctxs) ->
    ids_from ctxs (AtLoop id) !! i = Some (id + Z.of_nat i).
Proof.
  induction ctxs as [|c ctxs IH]; intros i id Hpos Hmax Hi Hlive.
  - simpl in Hi. lia.
  - rewrite length_cons, Nat2Z.inj_succ in Hmax.
    rewrite firstn_cons in Hlive. apply Forall_cons in Hlive as [-> Hlive].
    cbn [ids_from identify idCh_recv].
    destruct i as [|i].
    + simpl. f_equal. lia.
    + simpl in Hi. rewrite lookup_cons.
      destruct ctxs as [|c' ctxs']; [simpl in Hi; lia |].
      rewrite length_cons, Nat2Z.inj_succ in Hmax.
      rewrite wrap_succ by lia.
      rewrite (IH i (id + 1)); [f_equal; lia | lia | rewrite length_cons; lia | lia | done].
Qed.

(** C6. While the counter stays within Go's [int] (fewer than 2^63
    receives), every receive on [s.idCh] made while the context of
    [identify] is live yields an integer, the receive number [i] (from 0)
    the integer [i + 1]; every integer yielded is positive and larger than
    all the ones yielded before it; no two receives get the same integer;
    and whichever goroutines the receivers are, each of them is handed an
    integer and no two of them the same. *)
Theorem C6_ids_positive_increasing_unique (ctxs : list bool) :
  Z.of_nat (length ctxs) <= GoInt.max_int ->
  (forall i, (i < length ctxs)%nat ->
     Forall (fun c => c = false) (take (S i) ctxs) ->
     allocated ctxs !! i = Some (Z.of_nat i + 1)) /\
  Forall (fun id => 0 < id) (allocated ctxs) /\
  (forall i j x y, (i < j)%nat ->
     allocated ctxs !! i = Some x -> allocated ctxs !! j = Some y -> x < y) /\
  (forall i j x, allocated ctxs !! i = Some x -> allocated ctxs !! j = Some x -> i = j) /\
  (forall (C : Type) (callers : list C) (i : nat) (c : C),
     length callers = length ctxs ->
     callers !! i = Some c ->
     exists x, handed_out callers !! i = Some (c, x) /\ 0 < x) /\
  (forall (C : Type) (callers : list C) (i j : nat) (c1 c2 : C) (x : Z),
     length callers = length ctxs ->
     handed_out callers !! i = Some (c1, x) ->
     handed_out callers !! j = Some (c2, x) -> i = j).
Proof.
  intros Hmax.
  assert (Hrep : forall (C : Type) (callers : list C),
             List.map (fun _ : C => false) callers = replicate (length callers) false).
  { intros C callers. induction callers; simpl; congruence. }
  split.
  { intros i Hi Hlive. unfold allocated.
    rewrite (ids_from_lookup ctxs i 1); [f_equal; lia | lia | lia | done | done]. }
  unfold allocated.
  destruct (ids_from_AtLoop ctxs 1) as (k & Hk & Heq); [lia | lia |].
  rewrite Heq. repeat split.
  - apply Forall_seqZ. lia.
  - intros i j x y Hij Hi Hj.
    apply lookup_seqZ in Hi, Hj. lia.
  - intros i j x Hi Hj.
    apply lookup_seqZ in Hi, Hj. lia.
  - intros C callers i c Hlen Hc.
    unfold handed_out, allocated.
    rewrite Hrep, ids_from_live by lia.
    exists (1 + Z.of_nat i). split; [| lia].
    apply lookup_zip_with_Some. exists c, (1 + Z.of_nat i).
    split; [done |]. split; [done |].
    apply lookup_seqZ. split; [done |].
    apply lookup_lt_Some in Hc. lia.
  - intros C callers i j c1 c2 x Hlen Hi Hj.
    unfold handed_out, allocated in Hi, Hj.
    rewrite Hrep, ids_from_live in Hi, Hj by lia.
    apply lookup_zip_with_Some in Hi as (a1 & b1 & Ha1 & _ & Hb1).
    apply lookup_zip_with_Some in Hj as (a2 & b2 & Ha2 & _ & Hb2).
    inversion Ha1; inversion Ha2; subst.
    apply lookup_seqZ in Hb1, Hb2. lia.
Qed.

(** Three receives under a live context get 1, 2 and 3. *)
Lemma C6_witness :
  allocated [false; false; false] !! 2%nat = Some 3 /\
  Forall (fun id => 0 < id) (allocated [false; false; false]) /\
  (forall i j x y, (i < j)%nat ->
     allocated [false; false; false] !! i = Some x ->
     allocated [false; false; false] !! j = Some y -> x < y) /\
  (exists x, handed_out ["Mkdir"; "Ls"; "Read"] !! 1%nat = Some ("Ls", x) /\ 0 < x).
Proof.
  pose proof (C6_ids_positive_increasing_unique [false; false; false]) as H.
  destruct H as (H0 & H1 & H2 & _ & H4 & _).
  - vm_compute. discriminate.
  - split; [apply (H0 2%nat); [simpl; lia | repeat constructor] |].
    split; [exact H1 |]. split; [exact H2 |].
    apply (H4 string ["Mkdir"; "Ls"; "Read"] 1%nat "Ls"); reflexivity.
Defined.

(** ** Routing of inbound frames *)

Lemma route_key_id (d : decResp.t) :
  decResp.ID d <> 0 -> route_key d = KInt (decResp.ID d).
Proof. intros H. unfold route_key. apply Z.eqb_neq in H. rewrite H. reflexivity. Qed.

Lemma route_key_subscription (d : decResp.t) :
  decResp.ID d = 0 -> route_key d = KString (decResp.Subscription (decResp.Params d)).
Proof. intros H. unfold route_key. rewrite H. reflexivity. Qed.

Lemma chan_send_awaited (c : nat) (b : body) (w : World) :
  awaited c w -> chan_send c b w = Sent (delivered c b w).
Proof. unfold awaited, chan_send. intros ->. reflexivity. Qed.

(** A frame whose key has a [chan []byte] entry with a waiting receiver is
    handed to that channel, and the loop goes on. *)
Lemma read_step_hit (ctx_done pick_ctx : bool) (b : body) (d : decResp.t)
    (msgCh : list body) (c : nat) (w : World) :
  ctx_done && pick_ctx = false ->
  decodes_to b d ->
  Map w !! route_key d = Some (chan_bytes c) ->
  awaited c w ->
  read_step ctx_done pick_ctx (b :: msgCh) w = ReadLoops msgCh (delivered c b w).
Proof.
  intros Hctx Hdec Hmap Hch. unfold read_step.
  rewrite Hctx. unfold decodes_to in Hdec. rewrite Hdec. cbn [negb].
  rewrite Hmap, (chan_send_awaited _ _ _ Hch). reflexivity.
Qed.

(** With an empty [msgCh] and a live context the loop takes the next
    message off the socket. *)
Lemma read_step_fetch (pick_ctx : bool) (msg : body) (rest : list ws_event) (w : World) :
  ws_closed (ws w) = false ->
  inbound (ws w) = ws_message msg :: rest ->
  read_step false pick_ctx [] w
  = ReadLoops [msg] (set_ws (fun c => mkConn rest (written c) (ws_closed c)) w).
Proof. intros Hopen Hin. unfold read_step. rewrite Hopen, Hin. reflexivity. Qed.

Lemma read_replies (arrivals : list (Z * nat)) :
  forall (replies : list body) (rest : list ws_event) (w : World),
    NoDup arrivals.*2 ->
    Forall2 reply_to replies arrivals ->
    Forall (pending w) arrivals ->
    ws_closed (ws w) = false ->
    inbound (ws w) = (ws_message <$> replies) ++ rest ->
    exists w',
      read (2 * length replies) [] w = ReadLoops [] w' /\
      Map w' = Map w /\
      inbound (ws w') = rest /\
      (forall c, c ∉ arrivals.*2 -> chans w' !! c = chans w !! c) /\
      Forall2 (receives w') replies arrivals.
Proof.
  induction arrivals as [|[id c] arrivals IH]; intros replies rest w Hnd Hrep Hpend Hopen Hin.
  - apply Forall2_nil_inv_r in Hrep as ->. exists w. simpl in *. repeat split; auto.
  - apply Forall2_cons_inv_r in Hrep as (b & replies' & Hb & Hrep & ->).
    apply NoDup_cons in Hnd as [Hc Hnd]. simpl in Hc.
    apply Forall_cons in Hpend as [(Hid & Hmap & Hch) Hpend].
    destruct Hb as (d & Hdec & Hd). simpl in Hid, Hmap, Hch, Hd.
    rewrite fmap_cons in Hin. simpl in Hin.
    replace (2 * length (b :: replies'))%nat with (S (S (2 * length replies'))) by (simpl; lia).
    cbn [read]. rewrite (read_step_fetch _ _ _ _ Hopen Hin).
    set (w1 := set_ws _ w).
    rewrite (read_step_hit false false b d [] c w1); try done.
    2:{ rewrite route_key_id by congruence. rewrite Hd. exact Hmap. }
    set (w2 := delivered c b w1).
    destruct (IH replies' rest w2) as (w' & Hrun & HMap & Hin' & Hframe & Hrecv); try done.
    { apply Forall_forall. intros [id' c'] Hel.
      rewrite Forall_forall in Hpend. destruct (Hpend _ Hel) as (Hid' & Hmap' & Hch').
      repeat split; try done. simpl in *.
      unfold awaited, w2, delivered, w1. simpl.
      rewrite lookup_insert_ne; [exact Hch' |].
      intros ->. apply Hc. apply list_elem_of_fmap. exists (id', c'). done. }
    exists w'. repeat split; try done.
    + intros c' Hc'. rewrite fmap_cons in Hc'. simpl in Hc'.
      apply not_elem_of_cons in Hc' as [Hne Hc'].
      rewrite (Hframe c' Hc'). unfold w2, delivered, w1. simpl.
      rewrite lookup_insert_ne; done.
    + constructor; [| exact Hrecv].
      intros ctx_done. unfold select_respCh. simpl.
      rewrite (Hframe c Hc). unfold w2, delivered, w1. simpl.
      rewrite lookup_insert_eq. reflexivity.
Qed.

(** C1, as the reader is written.  A frame that decodes is looked up
    under its id when that is nonzero and under its [params.subscription]
    otherwise.  When the entry found is a [chan []byte] whose receiver is
    waiting, the frame is handed to it; when the entry is of another type,
    the reader's assertion fails and the frame goes back into [msgCh].
    Hence, when calls with distinct ids are pending, each on its own
    channel, and their replies arrive in any order, every caller finds in
    its select exactly the reply that carries its id. *)
Theorem C1_frames_reach_their_waiter :
  (forall (ctx_done pick_ctx : bool) (b : body) (d : decResp.t) (msgCh : list body)
          (c : nat) (w : World),
      ctx_done && pick_ctx = false ->
      decodes_to b d ->
      Map w !! (if bool_decide (decResp.ID d <> 0) then KInt (decResp.ID d)
                else KString (decResp.Subscription (decResp.Params d)))
        = Some (chan_bytes c) ->
      awaited c w ->
      read_step ctx_done pick_ctx (b :: msgCh) w = ReadLoops msgCh (delivered c b w) /\
      forall ctx_done', select_respCh ctx_done' c (delivered c b w)
                        = SelectBody b (unblock c (delivered c b w))) /\
  (forall (ctx_done pick_ctx : bool) (b : body) (d : decResp.t) (msgCh : list body)
          (v : mapval) (w : World),
      ctx_done && pick_ctx = false ->
      decodes_to b d ->
      Map w !! (if bool_decide (decResp.ID d <> 0) then KInt (decResp.ID d)
                else KString (decResp.Subscription (decResp.Params d)))
        = Some v ->
      (forall c, v <> chan_bytes c) ->
      read_step ctx_done pick_ctx (b :: msgCh) w = msgCh_send b msgCh w) /\
  (forall (calls arrivals : list (Z * nat)) (replies : list body) (rest : list ws_event)
          (w : World),
      NoDup calls.*1 -> NoDup calls.*2 ->
      Forall (pending w) calls ->
      arrivals ≡ₚ calls ->
      Forall2 reply_to replies arrivals ->
      ws_closed (ws w) = false ->
      inbound (ws w) = (ws_message <$> replies) ++ rest ->
      exists w',
        read (2 * length replies) [] w = ReadLoops [] w' /\
        Forall2 (receives w') replies arrivals).
Proof.
  assert (Hkey : forall d : decResp.t,
             (if bool_decide (decResp.ID d <> 0) then KInt (decResp.ID d)
              else KString (decResp.Subscription (decResp.Params d))) = route_key d).
  { intros d. case_bool_decide as Hid.
    - by rewrite route_key_id.
    - rewrite route_key_subscription; [done |].
      destruct (decide (decResp.ID d = 0)); [done | contradiction]. }
  split; [| split].
  - intros ctx_done pick_ctx b d msgCh c w Hctx Hdec Hmap Hch. split.
    + apply (read_step_hit _ _ _ d); try done. by rewrite <- Hkey.
    + intros ctx_done'. unfold select_respCh, delivered. simpl.
      rewrite lookup_insert_eq. reflexivity.
  - intros ctx_done pick_ctx b d msgCh v w Hctx Hdec Hmap Hv.
    rewrite Hkey in Hmap. unfold read_step. rewrite Hctx.
    unfold decodes_to in Hdec. rewrite Hdec. cbn [negb]. rewrite Hmap.
    destruct v as [c|c|c]; [by destruct (Hv c) | reflexivity | reflexivity].
  - intros calls arrivals replies rest w _ Hnd Hpend Hperm Hrep Hopen Hin.
    destruct (read_replies arrivals replies rest w) as (w' & Hrun & _ & _ & _ & Hrecv);
      try done.
    + by rewrite Hperm.
    + by rewrite Hperm.
    + exists w'. done.
Qed.

Lemma C1_witness :
  exists w',
    read 4 [] two_calls = ReadLoops [] w' /\
    receives w' (reply 2 (JStr "two")) (2, 1%nat) /\
    receives w' (reply 1 (JStr "one")) (1, 0%nat).
Proof.
  destruct C1_frames_reach_their_waiter as (_ & _ & H).
  destruct (H [(1, 0%nat); (2, 1%nat)] [(2, 1%nat); (1, 0%nat)]
              [reply 2 (JStr "two"); reply 1 (JStr "one")] [] two_calls)
    as (w' & Hrun & Hrecv).
  - apply (bool_decide_unpack _). vm_compute. exact I.
  - apply (bool_decide_unpack _). vm_compute. exact I.
  - repeat constructor; simpl; try discriminate; vm_compute; reflexivity.
  - apply perm_swap.
  - repeat constructor; eexists; split; vm_compute; reflexivity.
  - vm_compute. reflexivity.
  - vm_compute. reflexivity.
  - exists w'. split; [exact Hrun |].
    apply Forall2_cons_1 in Hrecv as [H2 Hrecv].
    apply Forall2_cons_1 in Hrecv as [H1 _].
    split; assumption.
Defined.

(** Registered is not delivered.  After [Watch] has returned, its token
    w-1 is registered with the caller's [chan<- Event]; a frame pushed for
    w-1 (id zero) is never sent there: the reader turns on it for any
    number of rounds and leaves the world as it is, the event channel
    empty.  And after [Read] has returned with its reply, id 1 is still
    registered with its channel; a second frame with id 1 is not handed
    over either, the reader blocks in its send. *)
Lemma C1_counterexample :
  (exists g w d,
      watched = Returns (None, Some g) w /\
      decodes_to (push 0 "w-1" "" "created") d /\
      decResp.ID d = 0 /\
      Map w !! KString (decResp.Subscription (decResp.Params d))
        = Some (chan_send_Event (watch_eCh g)) /\
      event_chans w !! watch_eCh g = Some (mkEventChan [] false) /\
      forall n, read n [push 0 "w-1" "" "created"] w
                = ReadLoops [push 0 "w-1" "" "created"] w) /\
  (exists w,
      Read "a.txt" false false (reader_runs 2) false
        (identify_turn false
           (NewSandbox [ws_message (reply 1 (JStr "one"));
                        ws_message (reply 1 (JStr "again"))]))
      = Returns ("one", None) w /\
      Map w !! KInt 1 = Some (chan_bytes 0) /\
      read 2 [] w = ReadBlocks).
Proof.
  split.
  - do 3 eexists.
    split; [vm_compute; reflexivity |]. split; [vm_compute; reflexivity |].
    split; [reflexivity |]. split; [vm_compute; reflexivity |].
    split; [vm_compute; reflexivity |].
    match goal with
    | |- forall n, read n ?m ?w = _ =>
        assert (Hstep : read_step false false m w = ReadLoops m w)
          by (vm_compute; reflexivity)
    end.
    intros n. induction n as [|n IH]; [reflexivity |].
    cbn [read]. rewrite Hstep. exact IH.
  - eexists. split; [vm_compute; reflexivity |].
    split; vm_compute; reflexivity.
Qed.

(** ** Frames that do not decode *)

Lemma read_step_undecodable (ctx_done pick_ctx : bool) (b : body) (msgCh : list body)
    (w : World) :
  ctx_done && pick_ctx = false ->
  (Unmarshal_into b (zero : decResp.t)).2 = false ->
  read_step ctx_done pick_ctx (b :: msgCh) w = ReadReturns json_error (ws_Close w).
Proof.
  intros Hctx Hbad. unfold read_step. rewrite Hctx.
  destruct (Unmarshal_into b zero) as [d ok]. simpl in Hbad. subst ok. reflexivity.
Qed.

(** C3, as the reader is written: a frame that does not decode makes
    [read] return the decoding error on the spot (the deferred close shuts
    the websocket).  The frame reaches no channel, the routing table and
    every channel are as before, and whatever is still queued or unread is
    not dispatched by this loop any more. *)
Theorem C3_undecodable_frame_ends_read (ctx_done pick_ctx : bool) (b : body)
    (msgCh : list body) (w : World) :
  ctx_done && pick_ctx = false ->
  (Unmarshal_into b (zero : decResp.t)).2 = false ->
  read_step ctx_done pick_ctx (b :: msgCh) w = ReadReturns json_error (ws_Close w) /\
  (forall n, read (S n) (b :: msgCh) w = ReadReturns json_error (ws_Close w)) /\
  Map (ws_Close w) = Map w /\
  chans (ws_Close w) = chans w /\
  inbound (ws (ws_Close w)) = inbound (ws w) /\
  ws_closed (ws (ws_Close w)) = true.
Proof.
  intros Hctx Hbad. split; [by apply read_step_undecodable |].
  split; [| done].
  intros n. cbn [read]. by rewrite read_step_undecodable.
Qed.

Lemma C3_witness :
  read_step false false [garbage] (one_call []) = ReadReturns json_error (ws_Close (one_call [])).
Proof.
  apply (C3_undecodable_frame_ends_read false false garbage [] (one_call [])); reflexivity.
Defined.

(** With a call waiting for id 1, a frame that is not JSON followed by the
    reply to that call: [read] takes the first frame off the socket,
    returns on it, and the reply is never read; the caller is still
    blocked on its channel with nothing handed over. *)
Lemma C3_counterexample :
  exists w',
    read 2 [] (one_call [ws_message garbage; ws_message (reply 1 (JStr "one"))])
      = ReadReturns json_error w' /\
    inbound (ws w') = [ws_message (reply 1 (JStr "one"))] /\
    ws_closed (ws w') = true /\
    Map w' !! KInt 1 = Some (chan_bytes 0) /\
    awaited 0 w' /\
    select_respCh false 0 w' = SelectBlocks.
Proof. eexists. repeat split; vm_compute; reflexivity. Qed.

(** ** Frames with no entry to go to *)

(** A frame whose key has no [chan []byte] entry goes straight back into
    [msgCh]. *)
Lemma read_step_miss (ctx_done pick_ctx : bool) (b : body) (d : decResp.t)
    (msgCh : list body) (w : World) :
  ctx_done && pick_ctx = false ->
  decodes_to b d ->
  (forall c, Map w !! route_key d <> Some (chan_bytes c)) ->
  read_step ctx_done pick_ctx (b :: msgCh) w = msgCh_send b msgCh w.
Proof.
  intros Hctx Hdec Hmiss. unfold read_step. rewrite Hctx.
  unfold decodes_to in Hdec. rewrite Hdec. cbn [negb].
  destruct (Map w !! route_key d) as [[c | c | c] |] eqn:Hk; try reflexivity.
  exfalso. by apply (Hmiss c).
Qed.

(** C4, as the reader is written: a frame whose key has no byte channel in
    the routing table is put back into [msgCh] at once and is the next
    thing the loop takes up, without limit: as long as no such entry
    appears and the context is live, the loop turns on that frame for any
    number of rounds, the world unchanged, the socket unread, the frame
    never dropped. *)
Theorem C4_unmatched_frame_recirculates (b : body) (d : decResp.t) (w : World) :
  decodes_to b d ->
  (forall c, Map w !! route_key d <> Some (chan_bytes c)) ->
  forall n, read n [b] w = ReadLoops [b] w.
Proof.
  intros Hdec Hmiss n. induction n as [|n IH]; [reflexivity |].
  cbn [read]. rewrite (read_step_miss false false b d [] w); try done.
Qed.

Lemma C4_witness : read 5 [stray_event] (one_call []) = ReadLoops [stray_event] (one_call []).
Proof.
  apply (C4_unmatched_frame_recirculates stray_event
           (decResp.mk "" 0 (decResp.mkParams "sub-gone")) (one_call [])).
  - reflexivity.
  - intros c. vm_compute. discriminate.
Defined.

(** A stray event arrives ahead of the reply to the waiting call.  After a
    thousand turns of the loop the stray event is still in [msgCh]; the
    reply behind it has not been read and the caller is still blocked. *)
Lemma C4_counterexample :
  exists w',
    read 1001 [] (one_call [ws_message stray_event; ws_message (reply 1 (JStr "one"))])
      = ReadLoops [stray_event] w' /\
    inbound (ws w') = [ws_message (reply 1 (JStr "one"))] /\
    awaited 0 w' /\
    read 1000 [stray_event] w' = ReadLoops [stray_event] w'.
Proof. eexists. repeat split; vm_compute; reflexivity. Qed.

(** ** The end of the read loop *)

Lemma read_step_returns (ctx_done pick_ctx : bool) (msgCh : list body) (w : World)
    (err : error) (w' : World) :
  read_step ctx_done pick_ctx msgCh w = ReadReturns err w' -> w' = ws_Close w.
Proof.
  unfold read_step, msgCh_send. intros H.
  repeat match type of H with
         | ReadReturns _ _ = ReadReturns _ _ => injection H as _ H; by subst
         | ReadLoops _ _ = ReadReturns _ _ => discriminate H
         | ReadBlocks = ReadReturns _ _ => discriminate H
         | ReadPanics = ReadReturns _ _ => discriminate H
         | context [match ?x with _ => _ end] => destruct x eqn:?
         end.
Qed.

(** C5, as the reader is written: when [read] returns, for whatever
    reason, all it does on the way out is close the websocket.  The routing
    table and every channel are left as they were: no waiter is sent
    anything and no channel is closed, so a caller blocked in its select
    stays blocked unless its own context ends the wait. *)
Theorem C5_read_exit_leaves_waiters (ctx_done pick_ctx : bool) (msgCh : list body)
    (w : World) (err : error) (w' : World) :
  read_step ctx_done pick_ctx msgCh w = ReadReturns err w' ->
  w' = ws_Close w /\
  Map w' = Map w /\
  chans w' = chans w /\
  ws_closed (ws w') = true /\
  (forall c ctx_done', select_respCh ctx_done' c w' = SelectBlocks <->
                       select_respCh ctx_done' c w = SelectBlocks).
Proof.
  intros H. apply read_step_returns in H. subst w'.
  repeat split; try done.
  - unfold select_respCh. simpl. destruct (chans w !! c) as [[? [?|] ?]|]; try done.
    all: destruct ctx_done'; done.
  - unfold select_respCh. simpl. destruct (chans w !! c) as [[? [?|] ?]|]; try done.
    all: destruct ctx_done'; done.
Qed.

Lemma C5_witness :
  chans (ws_Close (one_call [ws_failure])) = chans (one_call [ws_failure]).
Proof.
  destruct (C5_read_exit_leaves_waiters false false [] (one_call [ws_failure])
              ws_read_error (ws_Close (one_call [ws_failure]))) as (_ & _ & H & _).
  - reflexivity.
  - exact H.
Defined.

(** A call waits for id 1.  The socket fails, or the context of [read] is
    cancelled: either way [read] returns, the entry for id 1 is still in
    the table, its channel is open with nothing handed over, and the
    caller's select still blocks. *)
Lemma C5_counterexample :
  (exists w',
     read 1 [] (one_call [ws_failure]) = ReadReturns ws_read_error w' /\
     Map w' !! KInt 1 = Some (chan_bytes 0) /\
     chans w' !! 0%nat = Some (mkChan true None false) /\
     select_respCh false 0 w' = SelectBlocks) /\
  (exists w',
     read_step true false [] (one_call []) = ReadReturns ctx_Err w' /\
     Map w' !! KInt 1 = Some (chan_bytes 0) /\
     chans w' !! 0%nat = Some (mkChan true None false) /\
     select_respCh false 0 w' = SelectBlocks).
Proof. split; eexists; repeat split; vm_compute; reflexivity. Qed.

(** ** Cancelled calls *)

Lemma call_opens (pick_ctx : bool) (method : Method) (params : list json) (id : Z)
    (w : World) :
  idCh w = Sending id ->
  ws_closed (ws w) = false ->
  call false pick_ctx method params w = CallWaits (next_chan w) (opened method params id w).
Proof.
  intros Hid Hopen. unfold call, make_chan, writeRequest. simpl.
  rewrite Hid. simpl. unfold ws_WriteMessage. simpl. rewrite Hopen. reflexivity.
Qed.

Lemma opened_registered (method : Method) (params : list json) (id : Z) (w : World) :
  Map (opened method params id w) !! KInt id = Some (chan_bytes (next_chan w)).
Proof. unfold opened. simpl. apply lookup_insert_eq. Qed.

Lemma select_respCh_cancelled (c : nat) (w : World) :
  no_reply c w -> select_respCh true c w = SelectDone (unblock c w).
Proof.
  unfold no_reply, select_respCh. intros H.
  destruct (chans w !! c) as [[r h cl]|]; [| reflexivity].
  simpl in H. subst h. reflexivity.
Qed.

(** C2, as the calls are written: a one-shot call that is waiting for its
    reply when its context is cancelled returns the context's error, and
    that is all it does.  It removes nothing from the routing table: the
    table is the one the other goroutines left, and none of them deletes a
    request id, so the entry under the call's id stays. *)
Theorem C2_cancelled_call_keeps_entry {A : Type} (deferred_close pick_ctx : bool)
    (method : Method) (params : list json) (failed : error -> A) (reply_ : body -> A)
    (others : World -> World) (id : Z) (w : World) :
  idCh w = Sending id ->
  ws_closed (ws w) = false ->
  no_reply (next_chan w) (others (opened method params id w)) ->
  exists w',
    one_shot deferred_close method params failed reply_ false pick_ctx others true w
      = Returns (failed ctx_Err) w' /\
    Map (opened method params id w) !! KInt id = Some (chan_bytes (next_chan w)) /\
    Map w' = Map (others (opened method params id w)).
Proof.
  intros Hid Hopen Hno. unfold one_shot.
  rewrite (call_opens _ _ _ id) by done.
  rewrite select_respCh_cancelled by done.
  eexists. split; [reflexivity |]. split; [apply opened_registered |].
  destruct deferred_close; reflexivity.
Qed.

Lemma C2_witness :
  exists w',
    Mkdir "dir" false false (fun w => w) true sandbox_ready = Returns (Some ctx_Err) w' /\
    Map w' !! KInt 1 = Some (chan_bytes 0).
Proof.
  destruct (C2_cancelled_call_keeps_entry false false filesystemMakeDir [JStr "dir"]
              Some Mkdir_reply (fun w => w) 1 sandbox_ready) as (w' & Hret & Hreg & Hmap).
  - reflexivity.
  - reflexivity.
  - reflexivity.
  - exists w'. split; [exact Hret |]. rewrite Hmap. exact Hreg.
Defined.

(** [Mkdir] and [Ls] are called on a fresh sandbox, nothing answers, and
    their contexts are cancelled.  Both return the context's error, and the
    table still holds the entries under their ids 1 and 2 ([Ls] has even
    closed the channel its entry points to). *)
Lemma C2_counterexample :
  exists w1 w2,
    Mkdir "dir" false false (fun w => w) true sandbox_ready = Returns (Some ctx_Err) w1 /\
    Map w1 !! KInt 1 = Some (chan_bytes 0) /\
    Ls "." false false (fun w => w) true (identify_turn false w1)
      = Returns ([], Some ctx_Err) w2 /\
    Map w2 !! KInt 1 = Some (chan_bytes 0) /\
    Map w2 !! KInt 2 = Some (chan_bytes 1) /\
    chans w2 !! 1%nat = Some (mkChan false None true).
Proof. do 2 eexists. repeat split; vm_compute; reflexivity. Qed.

(** ** Replies that carry an error *)

(** C9, evaluated on the code.  [Write] unmarshals the reply into a
    [Request], which has no error field, so a reply with an error gives a
    nil error whatever the error is; [Ls] decodes the error field and does
    not look at it, and returns the listing with a nil error.  [Read],
    [Mkdir] and [Start] do turn the same replies into errors. *)
Theorem C9_error_field_ignored :
  (forall e : json, Write_reply (Doc (JObj [("id", JInt 1); ("error", e)])) = None) /\
  (forall message : string,
      Ls_reply (refusal_text 1 (JArr [JObj [("name", JStr "x"); ("isDir", JBool false)]]) message)
      = ([LsResult.mk "x" false], None)) /\
  (exists w',
      Write "/etc/passwd" "data" false false (reader_runs 2) false
        (identify_turn false (NewSandbox [ws_message (refusal 1 (-32000) "permission denied")]))
      = Returns None w') /\
  (exists w',
      Ls "/root" false false (reader_runs 2) false
        (identify_turn false
           (NewSandbox [ws_message (refusal_text 1 JNull "permission denied")]))
      = Returns ([], None) w') /\
  Read_reply (refusal_text 1 JNull "permission denied")
    = ("", Some (Errorf "failed to read file: %s" [ArgStr "permission denied"])) /\
  Mkdir_reply (refusal 1 (-32000) "permission denied")
    = Some (Errorf "failed to write to file: %s" [ArgStr "permission denied"]) /\
  Start_reply (mkProcess "abcdefghijkl" "ls" "/" None) (refusal 1 (-32000) "permission denied")
    = Some (Errorf "process start failed(%d): %s" [ArgInt (-32000); ArgStr "permission denied"]).
Proof.
  split; [intros e; reflexivity |].
  split; [intros message; reflexivity |].
  split; [eexists; vm_compute; reflexivity |].
  split; [eexists; vm_compute; reflexivity |].
  repeat split.
Qed.

(** ** Subscriptions *)

Example proc_id : id proc = "abcdefghijkl".
Proof. reflexivity. Qed.

Example subscribed_active :
  exists w, subscribed [reply 1 (JStr "sub-1")] = Some (mkSub 1 0 [] (Active "sub-1"), w) /\
            Map w !! KString "sub-1" = Some (chan_bytes 1) /\
            Map w !! KInt 1 = Some (chan_bytes 1).
Proof. eexists. repeat split; vm_compute; reflexivity. Qed.

(** The subscribe, acknowledge, push sequence of the package's test. *)
Example subscribed_event :
  match subscribed [reply 1 (JStr "sub-1"); push 0 "sub-1" "" "hello"] with
  | Some (s, w) =>
      match subscribe_step false proc s (reader_runs 2 w) with
      | Some (s', w') =>
          sub_at_ s' = Active "sub-1" /\
          (fun ch => (fun e => EventResult.Line (EventParams.Result (Event.Params e)))
                       <$> sent ch) <$> event_chans w' !! 0%nat = Some ["hello"]
      | None => False
      end
  | None => False
  end.
Proof. vm_compute. split; reflexivity. Qed.

Lemma sub_move_same (s : subscription) (at_ : sub_at) :
  sub_at_ s = at_ -> sub_move at_ s = s.
Proof. destruct s. simpl. intros ->. reflexivity. Qed.

Lemma sub_select_nil (p : Process) (token : string) (s : subscription) (w : World) :
  Map w !! KString (id p) = None ->
  sub_select p token s w = (sub_move (Active token) s, block_on (sub_respCh s) w).
Proof. intros H. unfold sub_select, Done. rewrite H. reflexivity. Qed.




(** ** The end of a subscription *)

Lemma event_send_closed (c c' : nat) (e : Event.t) (w : World) :
  event_chan_closed c (event_send c' e w) = event_chan_closed c w.
Proof.
  unfold event_chan_closed, event_send. simpl.
  destruct (decide (c' = c)) as [->|Hne].
  - rewrite lookup_alter_eq. by destruct (event_chans w !! c).
  - by rewrite lookup_alter_ne.
Qed.

Lemma writeRequest_event_chans (ctx_done pick_ctx : bool) (method : Method)
    (params : list json) (respCh : nat) (w : World) (err : option error) (w' : World) :
  writeRequest ctx_done pick_ctx method params respCh w = WriteReturns err w' ->
  event_chans w' = event_chans w.
Proof.
  unfold writeRequest, ws_WriteMessage. intros H.
  destruct (idCh_recv (idCh w)) as [[id_ g]|].
  - destruct (ctx_done && pick_ctx); [by inversion H |].
    simpl in H. destruct (ws_closed (ws w)); by inversion H.
  - destruct ctx_done; by inversion H.
Qed.

Lemma chan_recv_event_chans (c : nat) (w : World) (b : body) (w' : World) :
  chan_recv c w = Some (b, w') -> event_chans w' = event_chans w.
Proof.
  unfold chan_recv. intros H.
  destruct (chans w !! c) as [[r [b0|] [|]]|]; by inversion H.
Qed.

Lemma sub_select_closed (c : nat) (p : Process) (token : string) (s : subscription)
    (w : World) :
  event_chan_closed c (sub_select p token s w).2 = event_chan_closed c w.
Proof. unfold sub_select. by destruct (Done p w). Qed.

(** No step of the goroutine of [subscribe] closes an event channel. *)
Lemma subscribe_step_closes_nothing (ctx_done : bool) (p : Process) (s s' : subscription)
    (w w' : World) (c : nat) :
  subscribe_step ctx_done p s w = Some (s', w') ->
  event_chan_closed c w' = event_chan_closed c w.
Proof.
  unfold subscribe_step. intros H.
  destruct (sub_at_ s) as [|token|token|token| |]; try discriminate H.
  - destruct (chan_recv (sub_respCh s) w) as [[b w1]|] eqn:Hrecv; [| discriminate H].
    apply chan_recv_event_chans in Hrecv.
    destruct (decodeResponse string json b); inversion H as [[Hs Hw]].
    + rewrite (surjective_pairing (sub_select _ _ _ _)) in Hs.
      inversion Hs. rewrite sub_select_closed.
      unfold event_chan_closed. simpl. by rewrite Hrecv.
    + unfold event_chan_closed. simpl. by rewrite Hrecv.
  - destruct (chan_recv (sub_respCh s) w) as [[b w1]|] eqn:Hrecv.
    + apply chan_recv_event_chans in Hrecv.
      destruct (Unmarshal_into b zero) as [event ok].
      destruct (negb (bool_decide (Event.Error event = ""))); inversion H as [[Hs Hw]];
        rewrite (surjective_pairing (sub_select _ _ _ _)) in Hs; inversion Hs;
        rewrite sub_select_closed, ?event_send_closed;
        unfold event_chan_closed; by rewrite Hrecv.
    + destruct ctx_done; by inversion H.
  - destruct (writeRequest _ _ _ _ _ _) as [|err w1] eqn:Hwr; inversion H.
    apply writeRequest_event_chans in Hwr.
    unfold event_chan_closed. simpl. by rewrite Hwr.
  - destruct (chan_recv (sub_respCh s) w) as [[b w1]|] eqn:Hrecv; [| discriminate H].
    apply chan_recv_event_chans in Hrecv.
    destruct (decodeResponse bool string b); inversion H;
      unfold event_chan_closed; simpl; by rewrite Hrecv.
Qed.

(** Nor does a turn of the goroutine of [Watch]. *)
Lemma Watch_step_closes_nothing (ctx_done : bool) (g : watcher) (w w' : World) (c : nat) :
  Watch_step ctx_done g w = WatchLoops w' \/ Watch_step ctx_done g w = WatchReturns w' ->
  event_chan_closed c w' = event_chan_closed c w.
Proof.
  unfold Watch_step. intros H.
  destruct ctx_done.
  { destruct H as [H|H]; inversion H. reflexivity. }
  destruct (chan_recv (watch_respCh g) w) as [[b w1]|] eqn:Hrecv.
  2:{ destruct H as [H|H]; inversion H. }
  apply chan_recv_event_chans in Hrecv.
  destruct (Unmarshal_into b zero) as [event ok].
  destruct (negb ok).
  { destruct H as [H|H]; inversion H. subst. unfold event_chan_closed. by rewrite Hrecv. }
  destruct (negb (bool_decide (Event.Error event = ""))).
  { destruct H as [H|H]; inversion H. subst. unfold event_chan_closed. by rewrite Hrecv. }
  destruct (negb (bool_decide (_ = watch_path g))).
  - destruct H as [H|H]; inversion H. subst. unfold event_chan_closed. by rewrite Hrecv.
  - destruct H as [H|H]; inversion H. subst. rewrite event_send_closed.
    unfold event_chan_closed. by rewrite Hrecv.
Qed.

(** C8, as [subscribe] is written.  When the caller's context is done and
    no event is pending, the event loop ends: the token's entry is deleted
    and the goroutine calls [writeRequest] for [process_unsubscribe] with
    the token, under a context of its own, so the request goes out as soon
    as an id is on offer whether or not the caller's context is done.  The
    output channel is not closed by this, nor by any other step of the
    goroutine, nor by the goroutine of [Watch]. *)
Theorem C8_unsubscribe_without_close (p : Process) (s : subscription) (token : string)
    (r : bool) (w : World) :
  sub_at_ s = Active token ->
  chans w !! sub_respCh s = Some (mkChan r None false) ->
  subscribe_step true p s w
  = Some (sub_move (Leaving token) s, set_Map (delete (KString token)) w) /\
  (forall (ctx_done : bool) (id_ : Z) (w1 : World),
      idCh w1 = Sending id_ ->
      ws_closed (ws w1) = false ->
      subscribe_step ctx_done p (sub_move (Leaving token) s) w1
      = Some (sub_move (Unsubscribing token) s,
              unsubscribe_written (sub_respCh s) token id_ w1)) /\
  (forall (ctx_done : bool) (s0 s1 : subscription) (w0 w1 : World) (c : nat),
      subscribe_step ctx_done p s0 w0 = Some (s1, w1) ->
      event_chan_closed c w1 = event_chan_closed c w0) /\
  (forall (ctx_done : bool) (g : watcher) (w0 w1 : World) (c : nat),
      Watch_step ctx_done g w0 = WatchLoops w1 \/ Watch_step ctx_done g w0 = WatchReturns w1 ->
      event_chan_closed c w1 = event_chan_closed c w0).
Proof.
  intros Hat Hch. repeat split.
  - unfold subscribe_step. rewrite Hat. unfold chan_recv. rewrite Hch. reflexivity.
  - intros ctx_done id_ w1 Hid Hopen.
    unfold subscribe_step, writeRequest, ws_WriteMessage. simpl.
    rewrite Hid. simpl. rewrite Hopen. reflexivity.
  - intros. by eapply subscribe_step_closes_nothing.
  - intros. by eapply Watch_step_closes_nothing.
Qed.

Lemma C8_witness :
  subscribe_step true proc (test_sub (Active "sub-1")) active_subscription
  = Some (test_sub (Leaving "sub-1"),
          set_Map (delete (KString "sub-1")) active_subscription).
Proof.
  apply (C8_unsubscribe_without_close proc (test_sub (Active "sub-1")) "sub-1" true
           active_subscription); reflexivity.
Defined.

(** The caller's context is cancelled while the subscription of the test
    waits for events.  The goroutine deletes the token, writes the
    unsubscribe request with id 2, gets the reply and returns; its
    response channel is closed, the output channel 0 is still open.  The
    goroutine of [Watch] returns on a done context having written nothing
    after the subscribe request, the event channel open as well. *)
Lemma C8_counterexample :
  (exists w1 w2 w3,
      subscribe_step true proc (test_sub (Active "sub-1")) active_subscription
        = Some (test_sub (Leaving "sub-1"), w1) /\
      Map w1 !! KString "sub-1" = None /\
      subscribe_step true proc (test_sub (Leaving "sub-1")) (identify_turn false w1)
        = Some (test_sub (Unsubscribing "sub-1"), w2) /\
      last (written (ws w2)) = Some (Request.mk rpc processUnsubscribe 2 [JStr "sub-1"]) /\
      subscribe_step true proc (test_sub (Unsubscribing "sub-1")) (reader_runs 2 w2)
        = Some (test_sub Returned, w3) /\
      chans w3 !! 1%nat = Some (mkChan false None true) /\
      event_chans w3 !! 0%nat = Some (mkEventChan [] false)) /\
  (exists g w,
      watched = Returns (None, Some g) w /\
      Watch_step true g w = WatchReturns w /\
      Request.Method <$> written (ws w) = [filesystemSubscribe] /\
      event_chans w !! 0%nat = Some (mkEventChan [] false)).
Proof.
  split.
  - do 3 eexists.
    split; [vm_compute; reflexivity |]. split; [vm_compute; reflexivity |].
    split; [vm_compute; reflexivity |]. split; [vm_compute; reflexivity |].
    split; [vm_compute; reflexivity |]. split; vm_compute; reflexivity.
  - do 2 eexists.
    split; [vm_compute; reflexivity |]. repeat split; vm_compute; reflexivity.
Qed.

(** The goroutine [Watch] starts finds its channel already closed: its
    first receive yields the nil slice, which does not decode, and it
    returns.  The events themselves are keyed to the [chan<- Event], which
    the reader cannot send bytes on, so they circulate in [msgCh]. *)
Lemma Watch_goroutine_returns_at_once :
  exists g w,
    watched = Returns (None, Some g) w /\
    Watch_step false g w = WatchReturns w /\
    Map w !! KString "w-1" = Some (chan_send_Event 0) /\
    read_step false false [push 0 "w-1" "" "created"] w
      = ReadLoops [push 0 "w-1" "" "created"] w.
Proof.
  do 2 eexists. split; [vm_compute; reflexivity |]. repeat split; vm_compute; reflexivity.
Qed.

(** ** What the routing table can hold *)

Lemma Map_change_ok (T : string -> Prop) (tokens : list string) (M M' : gmap key mapval) :
  Map_change tokens M M' ->
  (forall token, token ∈ tokens -> T token) ->
  Map_ok T M -> Map_ok T M'.
Proof.
  intros [-> | id_ c -> | token v0 Hin Hv -> | k0 ->] HT HM k v Hl.
  - by apply HM.
  - destruct (decide (KInt id_ = k)) as [<-|Hne].
    + rewrite lookup_insert_eq in Hl. inversion Hl; subst. split; [done | exact I].
    + rewrite lookup_insert_ne in Hl by done. by apply HM.
  - destruct (decide (KString token = k)) as [<-|Hne].
    + rewrite lookup_insert_eq in Hl. inversion Hl; subst. split; [done | by apply HT].
    + rewrite lookup_insert_ne in Hl by done. by apply HM.
  - apply lookup_delete_Some in Hl as [_ Hl]. by apply HM.
Qed.

Lemma writeRequest_Map (ctx_done pick_ctx : bool) (method : Method) (params : list json)
    (respCh : nat) (w : World) (err : option error) (w' : World) :
  writeRequest ctx_done pick_ctx method params respCh w = WriteReturns err w' ->
  Map_change [] (Map w) (Map w').
Proof.
  unfold writeRequest, ws_WriteMessage. intros H.
  destruct (idCh_recv (idCh w)) as [[id_ g]|].
  - destruct (ctx_done && pick_ctx); [inversion H; by apply Map_same |].
    simpl in H.
    destruct (ws_closed (ws w)); inversion H; by apply (Map_request _ _ _ id_ respCh).
  - destruct ctx_done; inversion H. by apply Map_same.
Qed.

Lemma chan_recv_Map (c : nat) (w : World) (b : body) (w' : World) :
  chan_recv c w = Some (b, w') -> Map w' = Map w.
Proof.
  unfold chan_recv. intros H.
  destruct (chans w !! c) as [[r [b0|] [|]]|]; by inversion H.
Qed.

Lemma sub_select_Map (p : Process) (token : string) (s : subscription) (w : World) :
  Map (sub_select p token s w).2 = Map w.
Proof. unfold sub_select. by destruct (Done p w). Qed.

Lemma msgCh_send_world (b : body) (msgCh msgCh' : list body) (w w' : World) :
  msgCh_send b msgCh w = ReadLoops msgCh' w' -> w' = w.
Proof. unfold msgCh_send. intros H. destruct (_ <? _)%nat; by inversion H. Qed.

Lemma read_step_Map (ctx_done pick_ctx : bool) (msgCh msgCh' : list body) (w w' : World) :
  read_step ctx_done pick_ctx msgCh w = ReadLoops msgCh' w' -> Map w' = Map w.
Proof.
  unfold read_step. intros H.
  destruct msgCh as [|b rest].
  - destruct ctx_done; [discriminate H |].
    destruct (ws_closed (ws w)); [discriminate H |].
    destruct (inbound (ws w)) as [|[msg|] more]; try discriminate H.
    apply msgCh_send_world in H. by subst.
  - destruct (ctx_done && pick_ctx); [discriminate H |].
    destruct (Unmarshal_into b zero) as [d ok].
    destruct ok; [| discriminate H]. cbn [negb] in H.
    destruct (Map w !! route_key d) as [[c|c|c]|].
    + unfold chan_send in H.
      destruct (chans w !! c) as [[r h cl]|]; [| discriminate H]. simpl in H.
      destruct cl; [discriminate H |]. destruct r; [| discriminate H].
      by inversion H.
    + apply msgCh_send_world in H. by subst.
    + apply msgCh_send_world in H. by subst.
    + apply msgCh_send_world in H. by subst.
Qed.

Lemma call_Map (ctx_done pick_ctx : bool) (method : Method) (params : list json)
    (w : World) (c : nat) (w' : World) :
  call ctx_done pick_ctx method params w = CallWaits c w' \/
  (exists err, call ctx_done pick_ctx method params w = CallFails err c w') ->
  Map_change [] (Map w) (Map w').
Proof.
  unfold call. intros H.
  destruct (make_chan w) as [respCh w1] eqn:Hmk.
  assert (HM : Map w1 = Map w) by (unfold make_chan in Hmk; by inversion Hmk).
  rewrite <- HM.
  destruct (writeRequest _ _ _ _ _ _) as [|[err|] w2] eqn:Hwr.
  - destruct H as [H|[err H]]; discriminate H.
  - destruct H as [H|[err' H]]; inversion H; subst. by eapply writeRequest_Map.
  - destruct H as [H|[err' H]]; inversion H; subst. simpl. by eapply writeRequest_Map.
Qed.

Lemma subscribe_Map (ctx_done pick_ctx : bool) (p : Process) (event : ProcessEvents)
    (w : World) (s : subscription) (w' : World) :
  subscribe ctx_done pick_ctx p event w = Some (s, w') -> Map_change [] (Map w) (Map w').
Proof.
  unfold subscribe, make_event_chan, make_chan. simpl. intros H.
  destruct (writeRequest _ _ _ _ _ _) as [|[err|] w2] eqn:Hwr; inversion H; subst;
    apply writeRequest_Map in Hwr; exact Hwr.
Qed.

Lemma subscribe_step_Map (ctx_done : bool) (p : Process) (s s' : subscription)
    (w w' : World) (msgCh : list body) :
  subscribe_step ctx_done p s w = Some (s', w') ->
  Map_change (acknowledged (SubscribeStep ctx_done p s) (w, msgCh)) (Map w) (Map w').
Proof.
  unfold subscribe_step, acknowledged. cbn [fst]. intros H.
  destruct (sub_at_ s) as [|token|token|token| |]; try discriminate H.
  - destruct (chan_recv (sub_respCh s) w) as [[b w1]|] eqn:Hrecv; [| discriminate H].
    apply chan_recv_Map in Hrecv.
    destruct (decodeResponse string json b) as [res|err].
    + rewrite (surjective_pairing (sub_select _ _ _ _)) in H. inversion H; subst.
      rewrite sub_select_Map. simpl. rewrite Hrecv.
      apply (Map_token _ _ _ (Response.Result res) (chan_bytes (sub_respCh s)));
        [set_solver | done | done].
    + inversion H; subst. apply Map_same. simpl. exact Hrecv.
  - destruct (chan_recv (sub_respCh s) w) as [[b w1]|] eqn:Hrecv.
    + apply chan_recv_Map in Hrecv.
      destruct (Unmarshal_into b zero) as [event ok].
      destruct (negb (bool_decide (Event.Error event = "")));
        rewrite (surjective_pairing (sub_select _ _ _ _)) in H; inversion H; subst;
        rewrite sub_select_Map; apply Map_same; simpl; exact Hrecv.
    + destruct ctx_done; inversion H; subst. by apply (Map_delete _ _ _ (KString token)).
  - destruct (writeRequest _ _ _ _ _ _) as [|err w1] eqn:Hwr; inversion H; subst.
    simpl. by eapply writeRequest_Map.
  - destruct (chan_recv (sub_respCh s) w) as [[b w1]|] eqn:Hrecv; [| discriminate H].
    apply chan_recv_Map in Hrecv.
    destruct (decodeResponse bool string b); inversion H; subst;
      apply Map_same; simpl; exact Hrecv.
Qed.

Lemma Watch_ack_Map (path : string) (eCh respCh : nat) (w : World)
    (r : option error * option watcher) (w' : World) (msgCh : list body) :
  Watch_ack path eCh respCh w = Returns r w' ->
  Map_change (acknowledged (WatchAck path eCh respCh) (w, msgCh)) (Map w) (Map w').
Proof.
  unfold Watch_ack, acknowledged. cbn [fst]. intros H.
  destruct (chan_recv respCh w) as [[b w1]|] eqn:Hrecv; [| discriminate H].
  apply chan_recv_Map in Hrecv.
  destruct (decodeResponse string string b) as [res|err]; inversion H; subst.
  - simpl. rewrite Hrecv.
    apply (Map_token _ _ _ (Response.Result res) (chan_send_Event eCh));
      [set_solver | done | done].
  - apply Map_same. simpl. exact Hrecv.
Qed.

Lemma Watch_step_Map (ctx_done : bool) (g : watcher) (w w' : World) :
  Watch_step ctx_done g w = WatchLoops w' \/ Watch_step ctx_done g w = WatchReturns w' ->
  Map w' = Map w.
Proof.
  unfold Watch_step. intros H.
  destruct ctx_done.
  { destruct H as [H|H]; inversion H. by subst. }
  destruct (chan_recv (watch_respCh g) w) as [[b w1]|] eqn:Hrecv.
  2:{ destruct H as [H|H]; inversion H. }
  apply chan_recv_Map in Hrecv.
  destruct (Unmarshal_into b zero) as [event ok].
  destruct (negb ok).
  { destruct H as [H|H]; inversion H. by subst. }
  destruct (negb (bool_decide (Event.Error event = ""))).
  { destruct H as [H|H]; inversion H. by subst. }
  destruct (negb (bool_decide (_ = watch_path g)));
    destruct H as [H|H]; inversion H; by subst.
Qed.

(** Every operation changes the routing table in one of the four ways,
    and a string key comes in only as an acknowledged token. *)
Lemma exec_Map_change (a : action) (w : World) (msgCh : list body) (w' : World)
    (msgCh' : list body) :
  exec a (w, msgCh) = Some (w', msgCh') ->
  Map_change (acknowledged a (w, msgCh)) (Map w) (Map w').
Proof.
  destruct a as [c | c pk | c pk method params | c respCh | ch | | c pk p ev | c p s
                 | path eCh respCh | c g]; cbn [exec]; intros H.
  - inversion H. by apply Map_same.
  - destruct (read_step c pk msgCh w) as [m1 w1|err w1| |] eqn:Hr; inversion H; subst.
    + apply Map_same. by eapply read_step_Map.
    + apply read_step_returns in Hr. subst. by apply Map_same.
  - destruct (call c pk method params w) as [|err rc w1|rc w1] eqn:Hc; inversion H; subst.
    + apply (call_Map c pk method params w rc). right. by exists err.
    + apply (call_Map c pk method params w rc). by left.
  - unfold select_respCh in H.
    destruct (chans w !! respCh) as [[r [b0|] cl]|]; [| destruct c | destruct c];
      inversion H; by apply Map_same.
  - inversion H. by apply Map_same.
  - inversion H. by apply Map_same.
  - destruct (subscribe c pk p ev w) as [[s1 w1]|] eqn:Hs; inversion H; subst.
    by eapply subscribe_Map.
  - destruct (subscribe_step c p s w) as [[s1 w1]|] eqn:Hs; inversion H; subst.
    by eapply subscribe_step_Map.
  - destruct (Watch_ack path eCh respCh w) as [|r w1] eqn:Hw; inversion H; subst.
    by eapply Watch_ack_Map.
  - destruct (Watch_step c g w) as [w1|w1|] eqn:Hw; inversion H; subst;
      apply Map_same; eapply Watch_step_Map; eauto.
Qed.

Lemma run_Map_ok (T : string -> Prop) (acts : list action) :
  forall (cfg cfg' : config) (tokens : list string),
    run acts cfg = Some (cfg', tokens) ->
    (forall token, token ∈ tokens -> T token) ->
    Map_ok T (Map cfg.1) -> Map_ok T (Map cfg'.1).
Proof.
  induction acts as [|a acts IH]; intros cfg cfg' tokens Hrun HT HM.
  - inversion Hrun; by subst.
  - cbn [run] in Hrun.
    destruct (exec a cfg) as [cfg1|] eqn:Hex; [| discriminate Hrun].
    destruct (run acts cfg1) as [[cfg2 toks]|] eqn:Hrest; [| discriminate Hrun].
    inversion Hrun; subst.
    apply (IH cfg1 cfg' toks); [done | |].
    + intros token Hin. apply HT. apply elem_of_app. by right.
    + destruct cfg as [w m], cfg1 as [w1 m1].
      apply (Map_change_ok T (acknowledged a (w, m)) (Map w)); [| | done].
      * by eapply exec_Map_change.
      * intros token Hin. apply HT. apply elem_of_app. by left.
Qed.

Lemma call_registers (ctx_done pick_ctx : bool) (method : Method) (params : list json)
    (w : World) (c : nat) (w' : World) :
  call ctx_done pick_ctx method params w = CallWaits c w' ->
  exists id_, idCh w = Sending id_ /\ Map w' = <[KInt id_ := chan_bytes c]> (Map w).
Proof.
  unfold call, make_chan, writeRequest, ws_WriteMessage. simpl. intros H.
  destruct (idCh w) as [id_|id_|] eqn:Hid; simpl in H.
  - destruct ctx_done; discriminate H.
  - destruct (ctx_done && pick_ctx); [discriminate H |].
    destruct (ws_closed (ws w)); inversion H; subst.
    exists id_. split; reflexivity.
  - destruct ctx_done; discriminate H.
Qed.

(** X17. In every run of the package from a fresh sandbox [Done] never
    returns a channel: no operation stores a [<-chan struct{}] in the
    routing table.  [Start], like every call, registers its channel under
    the numeric request id and nothing else.  A string key enters the
    table only as the token of an acknowledgment that [subscribe] or
    [Watch] received; so [Done] returns nil as long as no such token
    equals the process id. *)
Theorem X17_Done_never_returns_a_channel (p : Process) (acts : list action)
    (peer : list ws_event) (w : World) (msgCh : list body) (tokens : list string) :
  run acts (NewSandbox peer, []) = Some ((w, msgCh), tokens) ->
  (forall c, Done p w <> Done_chan c) /\
  (id p ∉ tokens -> Done p w = Done_nil) /\
  (forall ctx_done pick_ctx w0 c w1,
      call ctx_done pick_ctx processStart
        [JStr (id p); JStr (cmd p); json_of_env (Start_env p); JStr (Cwd p)] w0
      = CallWaits c w1 ->
      exists id_, Map w1 = <[KInt id_ := chan_bytes c]> (Map w0)).
Proof.
  intros Hrun.
  assert (HM : Map_ok (fun s => s ∈ tokens) (Map w)).
  { apply (run_Map_ok _ acts (NewSandbox peer, []) (w, msgCh) tokens); [done | done |].
    intros k v Hl. simpl in Hl. by rewrite lookup_empty in Hl. }
  repeat split.
  - intros c. unfold Done.
    destruct (Map w !! KString (id p)) as [v|] eqn:Hl; [| done].
    destruct (HM _ _ Hl) as [Hv _]. destruct v; try done. by destruct (Hv c0).
  - intros Hnot. unfold Done.
    destruct (Map w !! KString (id p)) as [v|] eqn:Hl; [| done].
    destruct (HM _ _ Hl) as [_ Hin]. contradiction.
  - intros ctx_done pick_ctx w0 c w1 Hcall.
    apply call_registers in Hcall as (id_ & _ & HMap). by exists id_.
Qed.

(** The process is started, the peer accepts, [Start] returns nil: [Done]
    is nil afterwards and the table holds request id 1 alone. *)
Lemma X17_witness :
  exists w,
    run start_acts (NewSandbox accepting_peer, []) = Some ((w, []), []) /\
    Start proc false false (reader_runs 2) false
      (identify_turn false (NewSandbox accepting_peer)) = Returns None w /\
    Done proc w = Done_nil /\
    Map w = {[KInt 1 := chan_bytes 0]}.
Proof.
  eexists. split; [vm_compute; reflexivity |].
  split; [vm_compute; reflexivity |]. split.
  - eapply (X17_Done_never_returns_a_channel proc start_acts accepting_peer _ [] []).
    + vm_compute. reflexivity.
    + apply not_elem_of_nil.
  - vm_compute. reflexivity.
Defined.

(** C10, evaluated on the code.  The peer acknowledges [SubscribeStdout]
    with the process id as the token.  [subscribe] stores its byte channel
    under that string, and the [p.Done()] its select evaluates next finds
    the entry: the unchecked assertion to [<-chan struct{}] panics, in the
    goroutine of the subscription and in any other caller of [Done].
    Whenever a byte channel stands under the process id [Done] panics;
    with no entry there it returns nil. *)
Theorem C10_Done_panics_on_process_id_token :
  run collide_acts (NewSandbox start_peer, []) = Some ((collided, []), [id proc]) /\
  Map collided !! KString (id proc) = Some (chan_bytes 1) /\
  Done proc collided = Done_panics /\
  fst <$> subscribed [reply 1 (JStr (id proc))] = Some (mkSub 1 0 [] Panicked) /\
  fst <$> subscribed [reply 1 (JStr "sub-1")] = Some (mkSub 1 0 [] (Active "sub-1")) /\
  (forall (p : Process) (w : World) (c : nat),
      Map w !! KString (id p) = Some (chan_bytes c) -> Done p w = Done_panics) /\
  (forall (p : Process) (w : World),
      Map w !! KString (id p) = None -> Done p w = Done_nil).
Proof.
  split; [vm_compute; reflexivity |]. split; [vm_compute; reflexivity |].
  split; [vm_compute; reflexivity |]. split; [vm_compute; reflexivity |].
  split; [vm_compute; reflexivity |].
  split; intros; unfold Done; by rewrite H.
Qed.

(** * Further properties *)

(** ** The buffer of the reader *)

Lemma read_step_msgCh (ctx_done pick_ctx : bool) (msgCh msgCh' : list body) (w w' : World) :
  (length msgCh <= 1)%nat ->
  read_step ctx_done pick_ctx msgCh w = ReadLoops msgCh' w' ->
  (length msgCh' <= 1)%nat.
Proof.
  unfold read_step, msgCh_send. intros Hlen H.
  destruct msgCh as [|b [|b' rest]]; [| | simpl in Hlen; lia].
  - destruct ctx_done; [discriminate H |].
    destruct (ws_closed (ws w)); [discriminate H |].
    destruct (inbound (ws w)) as [|[msg|] more]; try discriminate H.
    simpl in H. inversion H; subst. simpl. lia.
  - destruct (ctx_done && pick_ctx); [discriminate H |].
    destruct (Unmarshal_into b zero) as [d ok].
    destruct ok; [| discriminate H]. cbn [negb] in H.
    destruct (Map w !! route_key d) as [[c|c|c]|].
    + destruct (chan_send c b w); inversion H; subst. simpl. lia.
    + simpl in H. inversion H; subst. simpl. lia.
    + simpl in H. inversion H; subst. simpl. lia.
    + simpl in H. inversion H; subst. simpl. lia.
Qed.

Lemma exec_msgCh (a : action) (w w' : World) (msgCh msgCh' : list body) :
  exec a (w, msgCh) = Some (w', msgCh') ->
  (length msgCh <= 1)%nat -> (length msgCh' <= 1)%nat.
Proof.
  intros H Hlen.
  destruct a; cbn [exec] in H;
    repeat match type of H with
           | Some _ = Some _ => inversion H; subst; clear H
           | None = Some _ => discriminate H
           | context [read_step ?c ?pk ?m ?x] =>
               let Hr := fresh "Hr" in
               destruct (read_step c pk m x) eqn:Hr
           | context [match ?x with _ => _ end] => destruct x
           end; try done.
  - by eapply read_step_msgCh.
  - simpl. lia.
Qed.

(** X1. Whatever the goroutines do, the ten-slot [msgCh] of the reader
    never holds more than one frame: the reader takes a frame off the
    socket only when [msgCh] is empty and puts back only the frame it has
    just taken out.  So its sends on [msgCh] never block, and a frame that
    finds no entry keeps every later frame on the socket. *)
Theorem X1_msgCh_holds_at_most_one (acts : list action) :
  forall (cfg cfg' : config) (tokens : list string),
    (length cfg.2 <= 1)%nat ->
    run acts cfg = Some (cfg', tokens) ->
    (length cfg'.2 <= 1)%nat /\
    (forall b w, msgCh_send b (tail cfg'.2) w = ReadLoops (tail cfg'.2 ++ [b]) w).
Proof.
  induction acts as [|a acts IH]; intros cfg cfg' tokens Hlen Hrun.
  - inversion Hrun; subst. split; [done |].
    intros b w. destruct cfg' as [w0 [|b0 [|b1 m]]]; simpl in *; try reflexivity; lia.
  - cbn [run] in Hrun.
    destruct (exec a cfg) as [cfg1|] eqn:Hex; [| discriminate Hrun].
    destruct (run acts cfg1) as [[cfg2 toks]|] eqn:Hrest; [| discriminate Hrun].
    inversion Hrun; subst.
    apply (IH cfg1 cfg' toks); [| done].
    destruct cfg as [w m], cfg1 as [w1 m1]. by eapply exec_msgCh.
Qed.

Lemma X1_witness :
  exists cfg, run start_acts (NewSandbox start_peer, []) = Some (cfg, []) /\
              (length cfg.2 <= 1)%nat.
Proof.
  exists (started, []). split; [vm_compute; reflexivity |].
  apply (X1_msgCh_holds_at_most_one start_acts (NewSandbox start_peer, []) (started, []) []).
  - simpl. lia.
  - vm_compute. reflexivity.
Defined.

(** ** Request ids stay registered *)

Lemma ids_kept_same (M M' : gmap key mapval) : M' = M -> ids_kept M M'.
Proof. intros -> n H. exact H. Qed.

Lemma ids_kept_insert (k : key) (v : mapval) (M : gmap key mapval) :
  ids_kept M (<[k := v]> M).
Proof.
  intros n H. destruct (decide (k = KInt n)) as [->|Hne].
  - rewrite lookup_insert_eq. by eexists.
  - by rewrite lookup_insert_ne.
Qed.

Lemma ids_kept_delete_token (token : string) (M : gmap key mapval) :
  ids_kept M (delete (KString token) M).
Proof. intros n H. by rewrite lookup_delete_ne. Qed.

Lemma ids_kept_trans (M1 M2 M3 : gmap key mapval) :
  ids_kept M1 M2 -> ids_kept M2 M3 -> ids_kept M1 M3.
Proof. intros H12 H23 n H. apply H23, H12, H. Qed.

Lemma writeRequest_ids (ctx_done pick_ctx : bool) (method : Method) (params : list json)
    (respCh : nat) (w : World) (err : option error) (w' : World) :
  writeRequest ctx_done pick_ctx method params respCh w = WriteReturns err w' ->
  ids_kept (Map w) (Map w').
Proof.
  unfold writeRequest, ws_WriteMessage. intros H.
  destruct (idCh_recv (idCh w)) as [[id_ g]|].
  - destruct (ctx_done && pick_ctx); [inversion H; by apply ids_kept_same |].
    simpl in H. destruct (ws_closed (ws w)); inversion H; apply ids_kept_insert.
  - destruct ctx_done; inversion H. by apply ids_kept_same.
Qed.

Lemma subscribe_step_ids (ctx_done : bool) (p : Process) (s s' : subscription)
    (w w' : World) :
  subscribe_step ctx_done p s w = Some (s', w') -> ids_kept (Map w) (Map w').
Proof.
  unfold subscribe_step. intros H.
  destruct (sub_at_ s) as [|token|token|token| |]; try discriminate H.
  - destruct (chan_recv (sub_respCh s) w) as [[b w1]|] eqn:Hrecv; [| discriminate H].
    apply chan_recv_Map in Hrecv.
    destruct (decodeResponse string json b) as [res|err].
    + rewrite (surjective_pairing (sub_select _ _ _ _)) in H. inversion H; subst.
      rewrite sub_select_Map. simpl. rewrite Hrecv. apply ids_kept_insert.
    + inversion H; subst. apply ids_kept_same. simpl. exact Hrecv.
  - destruct (chan_recv (sub_respCh s) w) as [[b w1]|] eqn:Hrecv.
    + apply chan_recv_Map in Hrecv.
      destruct (Unmarshal_into b zero) as [event ok].
      destruct (negb (bool_decide (Event.Error event = "")));
        rewrite (surjective_pairing (sub_select _ _ _ _)) in H; inversion H; subst;
        rewrite sub_select_Map; apply ids_kept_same; simpl; exact Hrecv.
    + destruct ctx_done; inversion H; subst. apply ids_kept_delete_token.
  - destruct (writeRequest _ _ _ _ _ _) as [|err w1] eqn:Hwr; inversion H; subst.
    simpl. by eapply writeRequest_ids.
  - destruct (chan_recv (sub_respCh s) w) as [[b w1]|] eqn:Hrecv; [| discriminate H].
    apply chan_recv_Map in Hrecv.
    destruct (decodeResponse bool string b); inversion H; subst;
      apply ids_kept_same; simpl; exact Hrecv.
Qed.

Lemma exec_ids (a : action) (w : World) (msgCh : list body) (w' : World)
    (msgCh' : list body) :
  exec a (w, msgCh) = Some (w', msgCh') -> ids_kept (Map w) (Map w').
Proof.
  destruct a as [c | c pk | c pk method params | c respCh | ch | | c pk p ev | c p s
                 | path eCh respCh | c g]; cbn [exec]; intros H.
  - inversion H. by apply ids_kept_same.
  - destruct (read_step c pk msgCh w) as [m1 w1|err w1| |] eqn:Hr; inversion H; subst.
    + apply ids_kept_same. by eapply read_step_Map.
    + apply read_step_returns in Hr. subst. by apply ids_kept_same.
  - unfold call, make_chan in H.
    destruct (writeRequest _ _ _ _ _ _) as [|[err|] w2] eqn:Hwr; inversion H; subst;
      apply writeRequest_ids in Hwr; exact Hwr.
  - unfold select_respCh in H.
    destruct (chans w !! respCh) as [[r [b0|] cl]|]; [| destruct c | destruct c];
      inversion H; by apply ids_kept_same.
  - inversion H. by apply ids_kept_same.
  - inversion H. by apply ids_kept_same.
  - unfold subscribe, make_event_chan, make_chan in H. simpl in H.
    destruct (writeRequest _ _ _ _ _ _) as [|[err|] w2] eqn:Hwr; inversion H; subst;
      apply writeRequest_ids in Hwr; exact Hwr.
  - destruct (subscribe_step c p s w) as [[s1 w1]|] eqn:Hs; inversion H; subst.
    by eapply subscribe_step_ids.
  - unfold Watch_ack in H.
    destruct (chan_recv respCh w) as [[b w1]|] eqn:Hrecv; [| discriminate H].
    apply chan_recv_Map in Hrecv.
    destruct (decodeResponse string string b) as [res|err]; inversion H; subst; simpl;
      rewrite Hrecv; [apply ids_kept_insert | by apply ids_kept_same].
  - destruct (Watch_step c g w) as [w1|w1|] eqn:Hw; inversion H; subst;
      apply ids_kept_same; eapply Watch_step_Map; eauto.
Qed.

(** X5. No operation of the package ever takes a request id out of the
    routing table: in every run, an id that is registered stays registered
    (only subscription tokens are deleted).  The table therefore grows by
    one entry with every request written. *)
Theorem X5_request_ids_are_never_removed (acts : list action) :
  forall (cfg cfg' : config) (tokens : list string) (n : Z),
    run acts cfg = Some (cfg', tokens) ->
    is_Some (Map cfg.1 !! KInt n) ->
    is_Some (Map cfg'.1 !! KInt n).
Proof.
  induction acts as [|a acts IH]; intros cfg cfg' tokens n Hrun Hn.
  - inversion Hrun; by subst.
  - cbn [run] in Hrun.
    destruct (exec a cfg) as [cfg1|] eqn:Hex; [| discriminate Hrun].
    destruct (run acts cfg1) as [[cfg2 toks]|] eqn:Hrest; [| discriminate Hrun].
    inversion Hrun; subst.
    apply (IH cfg1 cfg' toks n); [done |].
    destruct cfg as [w m], cfg1 as [w1 m1]. by apply (exec_ids a w m w1 m1).
Qed.

(** In the run of [Start], the id of the request is still registered
    after the reply has been taken and the call has returned. *)
Lemma X5_witness :
  is_Some (Map started !! KInt 1).
Proof.
  apply (X5_request_ids_are_never_removed [ReadTurn false false; ReadTurn false false;
                                           Select false 0]
           (match run [Identify false;
                       OpenCall false false processStart
                         [JStr (id proc); JStr (cmd proc); json_of_env (Start_env proc);
                          JStr (Cwd proc)]] (NewSandbox start_peer, []) with
            | Some (cfg, _) => cfg
            | None => (NewSandbox [], [])
            end)
           (started, []) [] 1).
  - vm_compute. reflexivity.
  - vm_compute. by eexists.
Defined.

(** ** Once [identify] has returned *)

Lemma chan_recv_idCh (c : nat) (w : World) (b : body) (w' : World) :
  chan_recv c w = Some (b, w') -> idCh w' = idCh w.
Proof.
  unfold chan_recv. intros H.
  destruct (chans w !! c) as [[r [b0|] [|]]|]; by inversion H.
Qed.

Lemma read_step_idCh (ctx_done pick_ctx : bool) (msgCh msgCh' : list body) (w w' : World) :
  read_step ctx_done pick_ctx msgCh w = ReadLoops msgCh' w' -> idCh w' = idCh w.
Proof.
  unfold read_step. intros H.
  destruct msgCh as [|b rest].
  - destruct ctx_done; [discriminate H |].
    destruct (ws_closed (ws w)); [discriminate H |].
    destruct (inbound (ws w)) as [|[msg|] more]; try discriminate H.
    apply msgCh_send_world in H. by subst.
  - destruct (ctx_done && pick_ctx); [discriminate H |].
    destruct (Unmarshal_into b zero) as [d ok].
    destruct ok; [| discriminate H]. cbn [negb] in H.
    destruct (Map w !! route_key d) as [[c|c|c]|].
    + unfold chan_send in H.
      destruct (chans w !! c) as [[r h cl]|]; [| discriminate H]. simpl in H.
      destruct cl; [discriminate H |]. destruct r; [| discriminate H].
      by inversion H.
    + apply msgCh_send_world in H. by subst.
    + apply msgCh_send_world in H. by subst.
    + apply msgCh_send_world in H. by subst.
Qed.

Lemma sub_select_idCh (p : Process) (token : string) (s : subscription) (w : World) :
  idCh (sub_select p token s w).2 = idCh w.
Proof. unfold sub_select. by destruct (Done p w). Qed.

Lemma writeRequest_Exited (ctx_done pick_ctx : bool) (method : Method)
    (params : list json) (respCh : nat) (w : World) (err : option error) (w' : World) :
  idCh w = Exited ->
  writeRequest ctx_done pick_ctx method params respCh w = WriteReturns err w' ->
  idCh w' = Exited.
Proof.
  intros Hid Hw. unfold writeRequest in Hw.
  rewrite Hid in Hw. simpl in Hw. destruct ctx_done; inversion Hw; by subst.
Qed.

Lemma subscribe_step_Exited (ctx_done : bool) (p : Process) (s s' : subscription)
    (w w' : World) :
  subscribe_step ctx_done p s w = Some (s', w') -> idCh w = Exited -> idCh w' = Exited.
Proof.
  unfold subscribe_step. intros H Hx.
  destruct (sub_at_ s) as [|token|token|token| |]; try discriminate H.
  - destruct (chan_recv (sub_respCh s) w) as [[b w1]|] eqn:Hrecv; [| discriminate H].
    apply chan_recv_idCh in Hrecv.
    destruct (decodeResponse string json b) as [res|err].
    + rewrite (surjective_pairing (sub_select _ _ _ _)) in H. inversion H; subst.
      rewrite sub_select_idCh. simpl. congruence.
    + inversion H; subst. simpl. congruence.
  - destruct (chan_recv (sub_respCh s) w) as [[b w1]|] eqn:Hrecv.
    + apply chan_recv_idCh in Hrecv.
      destruct (Unmarshal_into b zero) as [event ok].
      destruct (negb (bool_decide (Event.Error event = "")));
        rewrite (surjective_pairing (sub_select _ _ _ _)) in H; inversion H; subst;
        rewrite sub_select_idCh; simpl; congruence.
    + destruct ctx_done; inversion H; by subst.
  - destruct (writeRequest _ _ _ _ _ _) as [|err w1] eqn:Hwr; inversion H; subst.
    simpl. by eapply writeRequest_Exited.
  - destruct (chan_recv (sub_respCh s) w) as [[b w1]|] eqn:Hrecv; [| discriminate H].
    apply chan_recv_idCh in Hrecv.
    destruct (decodeResponse bool string b); inversion H; subst; simpl; congruence.
Qed.

Lemma Watch_step_idCh (ctx_done : bool) (g : watcher) (w w' : World) :
  Watch_step ctx_done g w = WatchLoops w' \/ Watch_step ctx_done g w = WatchReturns w' ->
  idCh w' = idCh w.
Proof.
  unfold Watch_step. intros H.
  destruct ctx_done.
  { destruct H as [H|H]; inversion H. by subst. }
  destruct (chan_recv (watch_respCh g) w) as [[b w1]|] eqn:Hrecv.
  2:{ destruct H as [H|H]; inversion H. }
  apply chan_recv_idCh in Hrecv.
  destruct (Unmarshal_into b zero) as [event ok].
  destruct (negb ok).
  { destruct H as [H|H]; inversion H. by subst. }
  destruct (negb (bool_decide (Event.Error event = ""))).
  { destruct H as [H|H]; inversion H. by subst. }
  destruct (negb (bool_decide (_ = watch_path g)));
    destruct H as [H|H]; inversion H; by subst.
Qed.

Lemma exec_Exited (a : action) (w : World) (msgCh : list body) (w' : World)
    (msgCh' : list body) :
  exec a (w, msgCh) = Some (w', msgCh') -> idCh w = Exited -> idCh w' = Exited.
Proof.
  intros H Hx.
  destruct a as [c | c pk | c pk method params | c respCh | ch | | c pk p ev | c p s
                 | path eCh respCh | c g]; cbn [exec] in H.
  - inversion H; subst. unfold identify_turn. simpl. by rewrite Hx.
  - destruct (read_step c pk msgCh w) as [m1 w1|err w1| |] eqn:Hr; inversion H; subst.
    + apply read_step_idCh in Hr. congruence.
    + apply read_step_returns in Hr. by subst.
  - unfold call, make_chan in H.
    destruct (writeRequest _ _ _ _ _ _) as [|[err|] w2] eqn:Hwq; inversion H; subst;
      by apply writeRequest_Exited in Hwq.
  - unfold select_respCh in H.
    destruct (chans w !! respCh) as [[r [b0|] cl]|]; [| destruct c | destruct c];
      inversion H; by subst.
  - inversion H; by subst.
  - inversion H; by subst.
  - unfold subscribe, make_event_chan, make_chan in H. simpl in H.
    destruct (writeRequest _ _ _ _ _ _) as [|[err|] w2] eqn:Hwq; inversion H; subst;
      by apply writeRequest_Exited in Hwq.
  - destruct (subscribe_step c p s w) as [[s1 w1]|] eqn:Hs; inversion H; subst.
    by eapply subscribe_step_Exited.
  - unfold Watch_ack in H.
    destruct (chan_recv respCh w) as [[b w1]|] eqn:Hrecv; [| discriminate H].
    apply chan_recv_idCh in Hrecv.
    destruct (decodeResponse string string b) as [res|err]; inversion H; subst; simpl;
      congruence.
  - destruct (Watch_step c g w) as [w1|w1|] eqn:Hw; inversion H; subst.
    + rewrite (Watch_step_idCh c g w w'); [done | by left].
    + rewrite (Watch_step_idCh c g w w'); [done | by right].
Qed.

(** X4. Once [identify] has returned (it saw its context done at the head
    of its loop), it stays so whatever else runs, and nothing is ever
    offered on [s.idCh] again: a call made under a live context blocks in
    [writeRequest] for good, one under a done context gets the context's
    error, and a subscription that has left its event loop never gets its
    unsubscribe request out, its fresh context notwithstanding. *)
Theorem X4_no_ids_once_identify_returned (acts : list action) :
  forall (cfg cfg' : config) (tokens : list string),
    idCh cfg.1 = Exited ->
    run acts cfg = Some (cfg', tokens) ->
    idCh cfg'.1 = Exited /\
    (forall pick_ctx method params respCh,
        writeRequest false pick_ctx method params respCh cfg'.1 = WriteBlocks /\
        writeRequest true pick_ctx method params respCh cfg'.1
        = WriteReturns (Some ctx_Err) cfg'.1) /\
    (forall pick_ctx method params, call false pick_ctx method params cfg'.1 = CallBlocks) /\
    (forall ctx_done p s token,
        sub_at_ s = Leaving token -> subscribe_step ctx_done p s cfg'.1 = None).
Proof.
  induction acts as [|a acts IH]; intros cfg cfg' tokens Hx Hrun.
  - inversion Hrun; subst. split; [done |]. repeat split.
    + unfold writeRequest. by rewrite Hx.
    + unfold writeRequest. by rewrite Hx.
    + intros. unfold call, make_chan, writeRequest. simpl. by rewrite Hx.
    + intros ctx_done p s token Hat. unfold subscribe_step, writeRequest.
      by rewrite Hat, Hx.
  - cbn [run] in Hrun.
    destruct (exec a cfg) as [cfg1|] eqn:Hex; [| discriminate Hrun].
    destruct (run acts cfg1) as [[cfg2 toks]|] eqn:Hrest; [| discriminate Hrun].
    inversion Hrun; subst.
    apply (IH cfg1 cfg' toks); [| done].
    destruct cfg as [w m], cfg1 as [w1 m1]. by apply (exec_Exited a w m w1 m1).
Qed.

Lemma X4_witness :
  call false false filesystemRead [JStr "a.txt"] (close_chan 0 cancelled_sandbox) = CallBlocks.
Proof.
  apply (X4_no_ids_once_identify_returned [Close 0] (cancelled_sandbox, [])
           (close_chan 0 cancelled_sandbox, []) []); reflexivity.
Defined.

(** ** Calls around the reader *)

Lemma one_shot_returned {A : Type} (deferred_close pick_ctx : bool) (method : Method)
    (params : list json) (failed : error -> A) (reply_ : body -> A)
    (others : World -> World) (ctx_done' : bool) (id_ : Z) (w : World) (a : A)
    (w' : World) (ch : Chan) :
  idCh w = Sending id_ ->
  ws_closed (ws w) = false ->
  chans (others (opened method params id_ w)) !! next_chan w = Some ch ->
  closed ch = false ->
  one_shot deferred_close method params failed reply_ false pick_ctx others ctx_done' w
    = Returns a w' ->
  Map w' = Map (others (opened method params id_ w)) /\
  chans w' !! next_chan w = Some (left_chan deferred_close).
Proof.
  intros Hid Hopen Hch Hcl. unfold one_shot.
  rewrite (call_opens _ _ _ id_) by done.
  unfold select_respCh. rewrite Hch. destruct ch as [r h cl]. simpl in Hcl. subst cl.
  assert (Hend : forall x : World, x = unblock (next_chan w) (others (opened method params id_ w)) ->
            Map (if deferred_close then close_chan (next_chan w) x else x)
            = Map (others (opened method params id_ w)) /\
            chans (if deferred_close then close_chan (next_chan w) x else x) !! next_chan w
            = Some (left_chan deferred_close)).
  { intros x ->. destruct deferred_close; simpl.
    - split; [done |]. rewrite !lookup_alter_eq, Hch. reflexivity.
    - split; [done |]. rewrite lookup_alter_eq, Hch. reflexivity. }
  destruct h as [b0|].
  - intros H. inversion H; subst. by apply Hend.
  - destruct ctx_done'; intros H; inversion H; subst. by apply Hend.
Qed.

(** X2. A call that has returned, with its reply or on cancellation,
    leaves its id registered with a channel nobody receives on any more.
    The next frame that carries that id (a late or a repeated reply) stops
    the reader: its send blocks for good, or, for the calls that close
    their channel on return ([Ls], [ReadBytes]), panics. *)
Theorem X2_frame_for_a_finished_call_stops_the_reader {A : Type}
    (deferred_close pick_ctx : bool) (method : Method) (params : list json)
    (failed : error -> A) (reply_ : body -> A) (others : World -> World)
    (ctx_done' : bool) (id_ : Z) (w : World) (a : A) (w' : World) (ch : Chan) :
  idCh w = Sending id_ ->
  id_ <> 0 ->
  ws_closed (ws w) = false ->
  Map (others (opened method params id_ w)) !! KInt id_ = Some (chan_bytes (next_chan w)) ->
  chans (others (opened method params id_ w)) !! next_chan w = Some ch ->
  closed ch = false ->
  one_shot deferred_close method params failed reply_ false pick_ctx others ctx_done' w
    = Returns a w' ->
  forall (b : body) (d : decResp.t) (msgCh : list body) (pick_ctx' : bool),
    decodes_to b d ->
    decResp.ID d = id_ ->
    read_step false pick_ctx' (b :: msgCh) w'
    = if deferred_close then ReadPanics else ReadBlocks.
Proof.
  intros Hid Hnz Hopen Hmap Hch Hcl Hret b d msgCh pick_ctx' Hdec Hd.
  destruct (one_shot_returned deferred_close pick_ctx method params failed reply_ others
              ctx_done' id_ w a w' ch) as [HM Hc]; try done.
  unfold read_step. unfold decodes_to in Hdec. rewrite Hdec. cbn [negb andb].
  rewrite route_key_id by congruence. rewrite Hd, HM, Hmap.
  unfold chan_send. rewrite Hc. by destruct deferred_close.
Qed.

Lemma X2_witness :
  read_step false false [reply 1 (JArr [])] Ls_cancelled = ReadPanics.
Proof.
  apply (X2_frame_for_a_finished_call_stops_the_reader true false filesystemList [JStr "."]
           (fun err => ([], Some err)) Ls_reply (fun w => w) true 1 sandbox_ready
           ([], Some ctx_Err) Ls_cancelled (mkChan true None false)
           eq_refl ltac:(discriminate) eq_refl eq_refl eq_refl eq_refl eq_refl
           (reply 1 (JArr [])) (decResp.mk "" 1 (decResp.mkParams "")) [] false
           eq_refl eq_refl).
Defined.

(** X3. After the reader has returned it has closed the websocket, and
    every call made from then on fails in [writeRequest] with the wrapped
    write error; yet the call has taken an id from the allocator and left
    its channel registered under it, with nothing written. *)
Theorem X3_calls_after_the_reader_returned {A : Type} (ctx_done pick_ctx : bool)
    (msgCh : list body) (w w1 : World) (err : error) (id_ : Z)
    (deferred_close pick_ctx' : bool) (method : Method) (params : list json)
    (failed : error -> A) (reply_ : body -> A) (others : World -> World)
    (ctx_done' : bool) :
  read_step ctx_done pick_ctx msgCh w = ReadReturns err w1 ->
  idCh w = Sending id_ ->
  exists w2,
    one_shot deferred_close method params failed reply_ false pick_ctx' others ctx_done' w1
    = Returns (failed (Errorf_wrap "writing %s request failed (%d): %w"
                         [ArgStr method; ArgInt id_] ws_write_error)) w2 /\
    Map w2 = <[KInt id_ := chan_bytes (next_chan w)]> (Map w) /\
    idCh w2 = AtLoop (GoInt.wrap (id_ + 1)) /\
    written (ws w2) = written (ws w).
Proof.
  intros Hret Hid. apply read_step_returns in Hret. subst w1.
  unfold one_shot, call, make_chan, writeRequest, ws_WriteMessage. simpl.
  rewrite Hid. simpl. eexists. split; [reflexivity |].
  destruct deferred_close; done.
Qed.

Lemma X3_witness :
  exists w2,
    Mkdir "dir" false false (fun w => w) false reader_gone
    = Returns (Some (Errorf_wrap "writing %s request failed (%d): %w"
                       [ArgStr filesystemMakeDir; ArgInt 1] ws_write_error)) w2 /\
    Map w2 !! KInt 1 = Some (chan_bytes 0).
Proof.
  destruct (X3_calls_after_the_reader_returned false false []
              (identify_turn false (NewSandbox [ws_failure])) reader_gone ws_read_error 1
              false false filesystemMakeDir [JStr "dir"] Some Mkdir_reply (fun w => w) false)
    as (w2 & Hret & HM & _).
  - reflexivity.
  - reflexivity.
  - exists w2. split; [exact Hret |]. rewrite HM. apply lookup_insert_eq.
Defined.

(** ** Calls in a row *)

Lemma open_calls_spec (reqs : list (Method * list json)) :
  forall (w : World) (id_ : Z),
    idCh w = AtLoop id_ ->
    0 < id_ ->
    id_ + Z.of_nat (length reqs) <= GoInt.max_int ->
    ws_closed (ws w) = false ->
    exists w',
      open_calls reqs w = Some w' /\
      idCh w' = AtLoop (id_ + Z.of_nat (length reqs)) /\
      next_chan w' = (next_chan w + length reqs)%nat /\
      written (ws w') = written (ws w) ++ requests_from id_ reqs /\
      inbound (ws w') = inbound (ws w) /\
      ws_closed (ws w') = false /\
      (forall n, n < id_ -> Map w' !! KInt n = Map w !! KInt n) /\
      (forall c, (c < next_chan w)%nat -> chans w' !! c = chans w !! c) /\
      (forall i, (i < length reqs)%nat ->
                 pending w' (id_ + Z.of_nat i, (next_chan w + i)%nat)).
Proof.
  induction reqs as [|[method params] reqs IH]; intros w id_ Hid Hpos Hmax Hopen.
  - exists w. simpl. rewrite Z.add_0_r, Nat.add_0_r, app_nil_r.
    repeat split; try done; simpl in *; lia.
  - rewrite length_cons, Nat2Z.inj_succ in Hmax.
    cbn [open_calls].
    rewrite (call_opens false method params id_ (identify_turn false w)).
    2:{ unfold identify_turn. simpl. by rewrite Hid. }
    2:{ done. }
    set (w2 := opened method params id_ (identify_turn false w)).
    destruct (IH w2 (id_ + 1)) as (w' & Hrun & Hid' & Hnext & Hwr & Hin & Hop & HMap & Hch & Hpend).
    { unfold w2, opened. simpl. by rewrite wrap_succ by lia. }
    { lia. }
    { lia. }
    { done. }
    exists w'. split; [exact Hrun |].
    split; [rewrite Hid', length_cons; f_equal; lia |].
    split; [rewrite Hnext, length_cons; unfold w2; simpl; lia |].
    split.
    { rewrite Hwr. unfold w2, opened, requests_from. simpl.
      rewrite <- app_assoc. f_equal. simpl. f_equal; [by rewrite Z.add_0_r |].
      apply imap_ext. intros i r _. simpl. f_equal. lia. }
    split; [by rewrite Hin |]. split; [exact Hop |].
    split.
    { intros n Hn. rewrite HMap by lia. unfold w2, opened. simpl.
      rewrite lookup_insert_ne; [done |]. intros Heq. inversion Heq. lia. }
    split.
    { intros c Hc. rewrite Hch by (unfold w2; simpl; lia). unfold w2, opened. simpl.
      rewrite lookup_alter_ne by lia. rewrite lookup_insert_ne by lia. done. }
    intros i Hi. rewrite length_cons in Hi. destruct i as [|i].
    + rewrite Z.add_0_r, Nat.add_0_r. unfold pending, awaited. simpl.
      split; [lia |]. split.
      * rewrite HMap by lia. unfold w2, opened. simpl. apply lookup_insert_eq.
      * rewrite Hch by (unfold w2; simpl; lia). unfold w2, opened. simpl.
        rewrite lookup_alter_eq, lookup_insert_eq. reflexivity.
    + replace (id_ + Z.of_nat (S i)) with (id_ + 1 + Z.of_nat i) by lia.
      replace (next_chan w + S i)%nat with (next_chan w2 + i)%nat
        by (unfold w2; simpl; lia).
      apply Hpend. lia.
Qed.

(** X6. Calls opened one after the other take consecutive ids and
    channels of their own: from a sandbox whose allocator stands at [id_],
    the [i]-th call registers its fresh channel under [id_ + i] and waits
    on it, the requests go out in that order with those ids, and entries
    and channels that were there before are left alone. *)
Theorem X6_calls_in_a_row_get_consecutive_ids (reqs : list (Method * list json))
    (w : World) (id_ : Z) :
  idCh w = AtLoop id_ ->
  0 < id_ ->
  id_ + Z.of_nat (length reqs) <= GoInt.max_int ->
  ws_closed (ws w) = false ->
  exists w',
    open_calls reqs w = Some w' /\
    written (ws w') = written (ws w) ++ requests_from id_ reqs /\
    (forall i, (i < length reqs)%nat ->
               pending w' (id_ + Z.of_nat i, (next_chan w + i)%nat)) /\
    (forall n, n < id_ -> Map w' !! KInt n = Map w !! KInt n) /\
    (forall c, (c < next_chan w)%nat -> chans w' !! c = chans w !! c).
Proof.
  intros Hid Hpos Hmax Hopen.
  destruct (open_calls_spec reqs w id_) as (w' & Hrun & _ & _ & Hwr & _ & _ & HM & Hch & Hp);
    try done.
  by exists w'.
Qed.

Lemma X6_witness :
  exists w',
    open_calls [(filesystemRead, [JStr "a.txt"]); (filesystemList, [JStr "."])]
      (NewSandbox []) = Some w' /\
    written (ws w') = [Request.mk rpc filesystemRead 1 [JStr "a.txt"];
                       Request.mk rpc filesystemList 2 [JStr "."]] /\
    Map w' !! KInt 2 = Some (chan_bytes 1).
Proof.
  destruct (X6_calls_in_a_row_get_consecutive_ids
              [(filesystemRead, [JStr "a.txt"]); (filesystemList, [JStr "."])]
              (NewSandbox []) 1) as (w' & Hrun & Hwr & Hp & _).
  - reflexivity.
  - lia.
  - vm_compute. discriminate.
  - reflexivity.
  - exists w'. split; [exact Hrun |]. split; [exact Hwr |].
    destruct (Hp 1%nat) as (_ & HM & _); [simpl; lia | exact HM].
Defined.

Lemma fresh_calls_chans (n : nat) : (fresh_calls n).*2 = seq 0 n.
Proof.
  unfold fresh_calls. rewrite <- list_fmap_compose.
  rewrite <- (list_fmap_id (seq 0 n)) at 2. by apply list_fmap_ext.
Qed.

(** X7. From the first request to the last reply: on a fresh sandbox any
    number of calls are opened one after the other and the peer answers
    them in any order; when the reader has gone through the replies, the
    select of every caller holds exactly the reply that carries the id its
    request went out with. *)
Theorem X7_replies_in_any_order_reach_their_callers (reqs : list (Method * list json))
    (arrivals : list (Z * nat)) (replies : list body) (rest : list ws_event) :
  Z.of_nat (length reqs) < GoInt.max_int ->
  arrivals ≡ₚ fresh_calls (length reqs) ->
  Forall2 reply_to replies arrivals ->
  exists w1 w2,
    open_calls reqs (NewSandbox ((ws_message <$> replies) ++ rest)) = Some w1 /\
    written (ws w1) = requests_from 1 reqs /\
    read (2 * length replies) [] w1 = ReadLoops [] w2 /\
    Forall2 (receives w2) replies arrivals.
Proof.
  intros Hmax Hperm Hrep.
  destruct (open_calls_spec reqs (NewSandbox ((ws_message <$> replies) ++ rest)) 1)
    as (w1 & Hrun & _ & _ & Hwr & Hin & Hop & _ & _ & Hp); try done; [lia |].
  destruct (read_replies arrivals replies rest w1) as (w2 & Hread & _ & _ & _ & Hrecv);
    try done.
  - rewrite Hperm, fresh_calls_chans. apply NoDup_seq.
  - rewrite Hperm. unfold fresh_calls. apply Forall_fmap, Forall_forall.
    intros i Hi. apply elem_of_seq in Hi. simpl.
    apply (Hp i). lia.
  - exists w1, w2. by rewrite Hwr.
Qed.

Lemma X7_witness :
  exists w1 w2,
    open_calls [(filesystemRead, [JStr "a.txt"]); (filesystemRead, [JStr "b.txt"])]
      (NewSandbox [ws_message (reply 2 (JStr "two")); ws_message (reply 1 (JStr "one"))])
    = Some w1 /\
    read 4 [] w1 = ReadLoops [] w2 /\
    receives w2 (reply 2 (JStr "two")) (2, 1%nat) /\
    receives w2 (reply 1 (JStr "one")) (1, 0%nat).
Proof.
  destruct (X7_replies_in_any_order_reach_their_callers
              [(filesystemRead, [JStr "a.txt"]); (filesystemRead, [JStr "b.txt"])]
              [(2, 1%nat); (1, 0%nat)]
              [reply 2 (JStr "two"); reply 1 (JStr "one")] [])
    as (w1 & w2 & Hrun & _ & Hread & Hrecv).
  - vm_compute. reflexivity.
  - apply perm_swap.
  - repeat constructor; eexists; split; vm_compute; reflexivity.
  - exists w1, w2. split; [exact Hrun |]. split; [exact Hread |].
    apply Forall2_cons_1 in Hrecv as [H2 Hrecv].
    apply Forall2_cons_1 in Hrecv as [H1 _].
    split; assumption.
Defined.

(** ** The stream of a subscription *)

Lemma reader_hands_over (b : body) (d : decResp.t) (c : nat) (rest : list ws_event)
    (w : World) :
  ws_closed (ws w) = false ->
  inbound (ws w) = ws_message b :: rest ->
  decodes_to b d ->
  Map w !! route_key d = Some (chan_bytes c) ->
  awaited c w ->
  reader_runs 2 w
  = delivered c b (set_ws (fun x => mkConn rest (written x) (ws_closed x)) w).
Proof.
  intros Hopen Hin Hdec Hmap Hch. unfold reader_runs. cbn [read].
  rewrite (read_step_fetch _ _ _ _ Hopen Hin).
  rewrite (read_step_hit false false b d [] c); done.
Qed.

Lemma subscribe_step_event (ctx_done : bool) (p : Process) (s : subscription)
    (token : string) (b : body) (r cl : bool) (w : World) :
  sub_at_ s = Active token ->
  chans w !! sub_respCh s = Some (mkChan r (Some b) cl) ->
  Map w !! KString (id p) = None ->
  subscribe_step ctx_done p s w
  = Some (s, block_on (sub_respCh s)
               (if bool_decide (Event.Error (event_of b) = "")
                then event_send (sub_events s) (event_of b) (unblock (sub_respCh s) w)
                else unblock (sub_respCh s) w)).
Proof.
  intros Hat Hch Hdone. unfold subscribe_step, event_of. rewrite Hat.
  unfold chan_recv. rewrite Hch.
  destruct (Unmarshal_into b zero) as [ev ok]. cbn [fst].
  case_bool_decide; cbn [negb]; rewrite sub_select_nil by done; by rewrite sub_move_same.
Qed.

(** X8. While a subscription is in its event loop, the frames pushed for
    its token come out on the output channel in the order the peer sent
    them, each as the event it decodes to, and the only frames left out are
    those with a non-empty error field. *)
Theorem X8_events_come_out_in_order (frames : list body) :
  forall (p : Process) (s : subscription) (token : string) (w : World)
         (rest : list ws_event) (sent0 : list Event.t) (cl : bool),
    sub_at_ s = Active token ->
    Map w !! KString token = Some (chan_bytes (sub_respCh s)) ->
    awaited (sub_respCh s) w ->
    Map w !! KString (id p) = None ->
    ws_closed (ws w) = false ->
    inbound (ws w) = (ws_message <$> frames) ++ rest ->
    Forall (pushed_to token) frames ->
    event_chans w !! sub_events s = Some (mkEventChan sent0 cl) ->
    exists w',
      rounds p (length frames) s w = Some (s, w') /\
      event_chans w' !! sub_events s
      = Some (mkEventChan
                (sent0 ++ filter (fun e => Event.Error e = "") (event_of <$> frames)) cl) /\
      inbound (ws w') = rest /\
      awaited (sub_respCh s) w'.
Proof.
  induction frames as [|b frames IH];
    intros p s token w rest sent0 cl Hat Hmap Hch Hdone Hopen Hin Hpush Hev.
  - exists w. simpl. rewrite app_nil_r. done.
  - apply Forall_cons in Hpush as [(d & Hdec & Hd0 & Hsub) Hpush].
    rewrite fmap_cons in Hin. simpl in Hin.
    cbn [rounds length].
    rewrite (reader_hands_over b d (sub_respCh s) ((ws_message <$> frames) ++ rest));
      try done.
    2:{ rewrite route_key_subscription by done. by rewrite Hsub. }
    set (w1 := delivered _ _ _).
    rewrite (subscribe_step_event false p s token b false false w1); try done.
    2:{ unfold w1, delivered. simpl. by rewrite lookup_insert_eq. }
    set (w2 := block_on _ _).
    assert (HM2 : Map w2 = Map w).
    { unfold w2. by case_bool_decide. }
    assert (Hch2 : awaited (sub_respCh s) w2).
    { unfold awaited, w2. case_bool_decide; simpl;
        by rewrite !lookup_alter_eq, lookup_insert_eq. }
    assert (Hin2 : inbound (ws w2) = (ws_message <$> frames) ++ rest).
    { unfold w2. by case_bool_decide. }
    assert (Hop2 : ws_closed (ws w2) = false).
    { unfold w2. by case_bool_decide. }
    rewrite fmap_cons, filter_cons.
    destruct (decide (Event.Error (event_of b) = "")) as [Hok|Herr].
    + destruct (IH p s token w2 rest (sent0 ++ [event_of b]) cl) as (w' & Hr & He & Hi & Hc);
        try done; try congruence.
      { unfold w2. rewrite bool_decide_true by done. simpl.
        rewrite lookup_alter_eq, Hev. reflexivity. }
      exists w'. rewrite <- app_assoc in He. done.
    + destruct (IH p s token w2 rest sent0 cl) as (w' & Hr & He & Hi & Hc);
        try done; try congruence.
      { unfold w2. rewrite bool_decide_false by done. simpl. exact Hev. }
      exists w'. done.
Qed.

Lemma X8_witness :
  exists w',
    rounds proc 3 (test_sub (Active "sub-1"))
      (set_ws (fun x => mkConn (ws_message <$> [push 0 "sub-1" "" "one";
                                                 push 0 "sub-1" "boom" "two";
                                                 push 0 "sub-1" "" "three"])
                          (written x) false) active_subscription)
    = Some (test_sub (Active "sub-1"), w') /\
    (fun ch => (fun e => EventResult.Line (EventParams.Result (Event.Params e))) <$> sent ch)
      <$> event_chans w' !! 0%nat = Some ["one"; "three"].
Proof.
  destruct (X8_events_come_out_in_order
              [push 0 "sub-1" "" "one"; push 0 "sub-1" "boom" "two"; push 0 "sub-1" "" "three"]
              proc (test_sub (Active "sub-1")) "sub-1"
              (set_ws (fun x => mkConn (ws_message <$> [push 0 "sub-1" "" "one";
                                                         push 0 "sub-1" "boom" "two";
                                                         push 0 "sub-1" "" "three"])
                                  (written x) false) active_subscription)
              [] [] false) as (w' & Hr & He & _).
  - reflexivity.
  - vm_compute. reflexivity.
  - vm_compute. reflexivity.
  - vm_compute. reflexivity.
  - reflexivity.
  - reflexivity.
  - repeat constructor; eexists; repeat split; vm_compute; reflexivity.
  - vm_compute. reflexivity.
  - exists w'. split; [exact Hr |].
    change (sub_events (test_sub (Active "sub-1"))) with 0%nat in He.
    rewrite He. vm_compute. reflexivity.
Defined.

(** ** What [Watch] leaves behind *)

(** X9. When [Watch] has returned without error, its response channel is
    closed with nothing on it, so the goroutine it started gets the nil
    slice at its first receive and returns, on any context, having sent
    nothing on the caller's channel.  The token is in the routing table,
    but with the caller's [chan<- Event]: a frame that arrives for it fails
    the reader's assertion and goes back into [msgCh]. *)
Theorem X9_Watch_forwards_nothing (ctx_done pick_ctx : bool) (path : string) (eCh : nat)
    (others : World -> World) (w : World) (g : watcher) (w' : World) :
  Watch ctx_done pick_ctx path eCh others w = Returns (None, Some g) w' ->
  watch_path g = path /\ watch_eCh g = eCh /\
  (forall ctx_done', Watch_step ctx_done' g w' = WatchReturns w') /\
  exists token,
    Map w' !! KString token = Some (chan_send_Event eCh) /\
    forall (b : body) (d : decResp.t) (msgCh : list body) (pick_ctx' : bool),
      decodes_to b d ->
      route_key d = KString token ->
      read_step false pick_ctx' (b :: msgCh) w' = msgCh_send b msgCh w'.
Proof.
  unfold Watch. intros H.
  destruct (call _ _ _ _ _) as [|err respCh w1|respCh w1]; try discriminate H.
  unfold Watch_ack, chan_recv in H.
  destruct (chans (others w1) !! respCh) as [[r h cl]|] eqn:Hch; [| discriminate H].
  assert (Hnil : decodeResponse string string nil_body = Err json_error) by reflexivity.
  destruct h as [b0|].
  - destruct (decodeResponse string string b0) as [res|err]; inversion H; subst.
    split; [done |]. split; [done |]. split.
    + intros [|]; [reflexivity |].
      unfold Watch_step, chan_recv. simpl.
      rewrite !lookup_alter_eq, Hch. reflexivity.
    + exists (Response.Result res). split; [simpl; apply lookup_insert_eq |].
      intros b d msgCh pick_ctx' Hdec Hkey.
      unfold read_step. unfold decodes_to in Hdec. rewrite Hdec. cbn [negb andb].
      rewrite Hkey. simpl. rewrite lookup_insert_eq. reflexivity.
  - destruct cl; [| discriminate H].
    rewrite Hnil in H. inversion H.
Qed.

Lemma X9_witness :
  exists g w, watched = Returns (None, Some g) w /\ Watch_step false g w = WatchReturns w.
Proof.
  assert (H : watched = Returns (None, Some (mkWatcher "/tmp" 1 0))
                          (match watched with Returns _ w => w | Blocks => NewSandbox [] end))
    by (vm_compute; reflexivity).
  exists (mkWatcher "/tmp" 1 0), (match watched with Returns _ w => w | Blocks => NewSandbox [] end).
  split; [exact H |].
  apply (X9_Watch_forwards_nothing false false "/tmp" 0 (reader_runs 2)
           (make_event_chan (identify_turn false (NewSandbox [ws_message (reply 1 (JStr "w-1"))]))).2
           (mkWatcher "/tmp" 1 0) _ H).
Defined.

(** ** Starting a process *)

(** X10. [Start] takes a reply for a success exactly when the reply
    decodes, its error code is zero and its result is the id the process
    was created with, that id being non-empty; every other reply makes it
    return an error. *)
Theorem X10_Start_succeeds_iff (p : Process) (b : body) :
  Start_reply p b = None <->
  exists res,
    decodeResponse string APIError.t b = Ok res /\
    APIError.Code (Response.Error res) = 0 /\
    Response.Result res = id p /\
    id p <> "".
Proof.
  unfold Start_reply. destruct (decodeResponse string APIError.t b) as [res|err].
  - destruct (APIError.Code (Response.Error res) =? 0) eqn:Hcode; cbn [negb].
    + apply Z.eqb_eq in Hcode. case_bool_decide as Hempty.
      * split; [discriminate |].
        intros (res' & Heq & _ & Hres & Hne). inversion Heq; subst. congruence.
      * case_bool_decide as Hsame; cbn [negb].
        -- split; [| done]. intros _. exists res. repeat split; try done. congruence.
        -- split; [discriminate |].
           intros (res' & Heq & _ & Hres & Hne). inversion Heq; subst. congruence.
    + apply Z.eqb_neq in Hcode. split; [discriminate |].
      intros (res' & Heq & Hc & _). inversion Heq; subst. contradiction.
  - split; [discriminate |]. intros (res & Heq & _). discriminate Heq.
Qed.

(** ** Process ids *)





(** ** The text of an execution *)

(** X12. The text of an execution is the text of its first main result,
    whatever comes after it; with no main result it is empty.  The text of
    a result is what its data hold under text/plain, and empty when the
    data are nil or have no such entry. *)
Theorem X12_Execution_Text_first_main (before after : list Result.t) (r : Result.t)
    (logs : Execution.logs) (err : option Execution.error_) :
  Forall (fun r' => Result.IsMainResult r' = false) before ->
  Result.IsMainResult r = true ->
  Execution.Text (Execution.mk (before ++ r :: after) logs err) = Result.Text r /\
  Execution.Text (Execution.mk before logs err) = "" /\
  (Result.Data r = None -> Result.Text r = "") /\
  (forall data, Result.Data r = Some data -> data !! "text/plain" = None ->
                Result.Text r = "").
Proof.
  intros Hbefore Hmain. unfold Execution.Text. simpl.
  repeat split.
  - induction Hbefore as [|r' before Hr' _ IH]; simpl.
    + by rewrite Hmain.
    + by rewrite Hr'.
  - induction Hbefore as [|r' before Hr' _ IH]; simpl; [done | by rewrite Hr'].
  - unfold Result.Text. by intros ->.
  - unfold Result.Text. intros data -> Hnone. by rewrite Hnone.
Qed.

Lemma X12_witness :
  Execution.Text
    (Execution.mk
       [Result.mk false (Some {["text/plain" := "log"]}) [];
        Result.mk true (Some {["text/plain" := "2"]}) [];
        Result.mk true (Some {["text/plain" := "3"]}) []]
       (Execution.mkLogs [] []) None) = "2".
Proof.
  destruct (X12_Execution_Text_first_main
              [Result.mk false (Some {["text/plain" := "log"]}) []]
              [Result.mk true (Some {["text/plain" := "3"]}) []]
              (Result.mk true (Some {["text/plain" := "2"]}) [])
              (Execution.mkLogs [] []) None) as [H _].
  - repeat constructor.
  - reflexivity.
  - etrans; [exact H |]. vm_compute. reflexivity.
Defined.

(** ** Frames the reader cannot decode *)

Lemma misfit_set_field (k : string) (v : json) (d : decResp.t) :
  misfit k v -> decResp.set_field k v d = Some (d, false).
Proof.
  intros Hm. unfold decResp.set_field.
  destruct Hm as [k items Hk | k s Hk | k literal Hk];
    unfold key_matches in *; apply bool_decide_eq_true in Hk; rewrite <- Hk.
  - destruct d as [m i [sub]]. reflexivity.
  - destruct d as [m i [sub]]. reflexivity.
  - destruct d as [m i [sub]]. reflexivity.
Qed.

Lemma unmarshal_members_misfit (members : list (string * json)) :
  forall d : decResp.t,
    (exists k v, (k, v) ∈ members /\ misfit k v) ->
    (unmarshal_members decResp.set_field members d).2 = false.
Proof.
  induction members as [|[k0 v0] members IH]; intros d (k & v & Hin & Hm).
  - by apply elem_of_nil in Hin.
  - cbn [unmarshal_members].
    apply elem_of_cons in Hin as [Heq|Hin].
    + inversion Heq; subst. rewrite (misfit_set_field _ _ _ Hm).
      destruct (unmarshal_members _ _ _) as [d' oks]. reflexivity.
    + destruct (decResp.set_field k0 v0 d) as [[d1 ok]|].
      * specialize (IH d1 (ex_intro _ k (ex_intro _ v (conj Hin Hm)))).
        destruct (unmarshal_members _ _ _) as [d' oks]. simpl in *. subst oks.
        apply andb_false_r.
      * apply IH. eauto.
Qed.

(** X13. A frame that is a JSON object with an array under [params] (the
    shape of every JSON-RPC request with positional parameters, those the
    package writes included), or with a string or a fractional number under
    [id], does not fit the [decResp] of the reader, whatever else it
    holds: the reader returns the decoding error on it and closes the
    websocket. *)
Theorem X13_misfit_frame_ends_read (ctx_done pick_ctx : bool)
    (members : list (string * json)) (k : string) (v : json) (msgCh : list body)
    (w : World) :
  ctx_done && pick_ctx = false ->
  (k, v) ∈ members ->
  misfit k v ->
  read_step ctx_done pick_ctx (Doc (JObj members) :: msgCh) w
  = ReadReturns json_error (ws_Close w).
Proof.
  intros Hctx Hin Hm. apply read_step_undecodable; [done |].
  unfold Unmarshal_into. cbn [unmarshal decResp.unmarshal_t unmarshal_struct].
  apply unmarshal_members_misfit. eauto.
Qed.

Lemma X13_witness :
  read_step false false
    [Doc (JObj [("jsonrpc", JStr "2.0"); ("method", JStr "filesystem_read");
                ("id", JInt 1); ("params", JArr [JStr "a.txt"])])]
    (one_call [])
  = ReadReturns json_error (ws_Close (one_call [])).
Proof.
  apply (X13_misfit_frame_ends_read false false _ "params" (JArr [JStr "a.txt"])).
  - reflexivity.
  - set_solver.
  - by constructor.
Defined.

(** ** Events around the acknowledgment and the cancellation *)

(** X14. When a subscription leaves its event loop it deletes its token;
    an event for that token that is still on its way then finds no entry
    and circulates in the reader for good, so that nothing behind it on
    the socket, the reply to the unsubscribe request included, is read. *)
Theorem X14_event_after_cancellation_wedges_the_reader (p : Process) (s : subscription)
    (token : string) (r : bool) (w : World) (b : body) :
  sub_at_ s = Active token ->
  chans w !! sub_respCh s = Some (mkChan r None false) ->
  pushed_to token b ->
  exists w1,
    subscribe_step true p s w = Some (sub_move (Leaving token) s, w1) /\
    Map w1 !! KString token = None /\
    forall n, read n [b] w1 = ReadLoops [b] w1.
Proof.
  intros Hat Hch (d & Hdec & Hd0 & Hsub).
  exists (set_Map (delete (KString token)) w).
  split.
  { unfold subscribe_step. rewrite Hat. unfold chan_recv. rewrite Hch. reflexivity. }
  assert (Hnone : Map (set_Map (delete (KString token)) w) !! KString token = None)
    by (simpl; apply lookup_delete_eq).
  split; [exact Hnone |].
  intros n. induction n as [|n IH]; [reflexivity |].
  cbn [read]. rewrite (read_step_miss false false b d [] _); try done.
  intros c. rewrite route_key_subscription by done. rewrite Hsub, Hnone. discriminate.
Qed.

Lemma X14_witness :
  exists w1,
    subscribe_step true proc (test_sub (Active "sub-1")) active_subscription
    = Some (test_sub (Leaving "sub-1"), w1) /\
    read 7 [push 0 "sub-1" "" "late"] w1 = ReadLoops [push 0 "sub-1" "" "late"] w1.
Proof.
  destruct (X14_event_after_cancellation_wedges_the_reader proc (test_sub (Active "sub-1"))
              "sub-1" true active_subscription (push 0 "sub-1" "" "late"))
    as (w1 & Hstep & _ & Hread).
  - reflexivity.
  - vm_compute. reflexivity.
  - eexists. repeat split; vm_compute; reflexivity.
  - exists w1. split; [exact Hstep | apply Hread].
Defined.

(** X15. An event that reaches the reader before [subscribe] has stored
    the token of its acknowledgment is not lost: the reader keeps it in
    [msgCh] for as long as the token is missing, and hands it to the
    subscription on the first turn after the goroutine has taken the
    acknowledgment and stored the token. *)
Theorem X15_early_event_waits_for_the_token (ctx_done pick_ctx : bool) (p : Process)
    (s : subscription) (ack b : body) (res : Response.t string json) (r : bool)
    (w : World) :
  sub_at_ s = Requesting ->
  chans w !! sub_respCh s = Some (mkChan r (Some ack) false) ->
  decodeResponse string json ack = Ok res ->
  Map w !! KString (Response.Result res) = None ->
  Response.Result res <> id p ->
  Map w !! KString (id p) = None ->
  pushed_to (Response.Result res) b ->
  (forall n, read n [b] w = ReadLoops [b] w) /\
  exists w',
    subscribe_step ctx_done p s w = Some (sub_move (Active (Response.Result res)) s, w') /\
    Map w' !! KString (Response.Result res) = Some (chan_bytes (sub_respCh s)) /\
    read_step false pick_ctx [b] w' = ReadLoops [] (delivered (sub_respCh s) b w').
Proof.
  intros Hat Hch Hack Hnone Hne Hdone (d & Hdec & Hd0 & Hsub).
  assert (Hkey : route_key d = KString (Response.Result res)).
  { rewrite route_key_subscription by done. by rewrite Hsub. }
  split.
  - intros n. induction n as [|n IH]; [reflexivity |].
    cbn [read]. rewrite (read_step_miss false false b d [] w); try done.
    intros c. rewrite Hkey, Hnone. discriminate.
  - eexists. split.
    + unfold subscribe_step. rewrite Hat. unfold chan_recv. rewrite Hch, Hack.
      rewrite sub_select_nil; [reflexivity |].
      simpl. rewrite lookup_insert_ne; [done |]. intros Heq. inversion Heq. done.
    + split; [simpl; apply lookup_insert_eq |].
      apply (read_step_hit false pick_ctx b d []); try done.
      * rewrite Hkey. simpl. apply lookup_insert_eq.
      * unfold awaited. simpl. rewrite !lookup_alter_eq, Hch. reflexivity.
Qed.

Lemma X15_witness :
  exists w',
    subscribe_step false proc (test_sub Requesting)
      (delivered 1 (reply 1 (JStr "sub-1")) (one_call []))
    = Some (test_sub (Active "sub-1"), w') /\
    read_step false false [push 0 "sub-1" "" "early"] w'
    = ReadLoops [] (delivered 1 (push 0 "sub-1" "" "early") w').
Proof.
  destruct (X15_early_event_waits_for_the_token false false proc (test_sub Requesting)
              (reply 1 (JStr "sub-1")) (push 0 "sub-1" "" "early")
              (Response.mk 1 "sub-1" (JStr "")) false
              (delivered 1 (reply 1 (JStr "sub-1")) (one_call [])))
    as (_ & w' & Hstep & _ & Hread).
  - reflexivity.
  - reflexivity.
  - reflexivity.
  - reflexivity.
  - discriminate.
  - reflexivity.
  - eexists. repeat split; vm_compute; reflexivity.
  - exists w'. split; [exact Hstep | exact Hread].
Defined.

(** ** Requests on the wire *)

Lemma writeRequest_written (ctx_done pick_ctx : bool) (method : Method)
    (params : list json) (respCh : nat) (w : World) (err : option error) (w' : World) :
  writeRequest ctx_done pick_ctx method params respCh w = WriteReturns err w' ->
  written (ws w') = written (ws w) \/
  exists req, written (ws w') = written (ws w) ++ [req] /\
              is_Some (Map w' !! KInt (Request.ID req)).
Proof.
  unfold writeRequest, ws_WriteMessage. intros H.
  destruct (idCh_recv (idCh w)) as [[id_ g]|].
  - destruct (ctx_done && pick_ctx); [inversion H; by left |].
    simpl in H. destruct (ws_closed (ws w)); inversion H; subst; [by left |].
    right. eexists. split; [reflexivity |]. simpl. rewrite lookup_insert_eq. by eexists.
  - destruct ctx_done; inversion H. by left.
Qed.

Lemma chan_recv_ws (c : nat) (w : World) (b : body) (w' : World) :
  chan_recv c w = Some (b, w') -> ws w' = ws w.
Proof.
  unfold chan_recv. intros H.
  destruct (chans w !! c) as [[r [b0|] [|]]|]; by inversion H.
Qed.

Lemma sub_select_ws (p : Process) (token : string) (s : subscription) (w : World) :
  ws (sub_select p token s w).2 = ws w.
Proof. unfold sub_select. by destruct (Done p w). Qed.

Lemma read_step_written (ctx_done pick_ctx : bool) (msgCh msgCh' : list body) (w w' : World) :
  read_step ctx_done pick_ctx msgCh w = ReadLoops msgCh' w' ->
  written (ws w') = written (ws w).
Proof.
  unfold read_step. intros H.
  destruct msgCh as [|b rest].
  - destruct ctx_done; [discriminate H |].
    destruct (ws_closed (ws w)); [discriminate H |].
    destruct (inbound (ws w)) as [|[msg|] more]; try discriminate H.
    apply msgCh_send_world in H. by subst.
  - destruct (ctx_done && pick_ctx); [discriminate H |].
    destruct (Unmarshal_into b zero) as [d ok].
    destruct ok; [| discriminate H]. cbn [negb] in H.
    destruct (Map w !! route_key d) as [[c|c|c]|].
    + unfold chan_send in H.
      destruct (chans w !! c) as [[r h cl]|]; [| discriminate H]. simpl in H.
      destruct cl; [discriminate H |]. destruct r; [| discriminate H].
      by inversion H.
    + apply msgCh_send_world in H. by subst.
    + apply msgCh_send_world in H. by subst.
    + apply msgCh_send_world in H. by subst.
Qed.

Lemma subscribe_step_written (ctx_done : bool) (p : Process) (s s' : subscription)
    (w w' : World) :
  subscribe_step ctx_done p s w = Some (s', w') ->
  written (ws w') = written (ws w) \/
  exists req, written (ws w') = written (ws w) ++ [req] /\
              is_Some (Map w' !! KInt (Request.ID req)).
Proof.
  unfold subscribe_step. intros H.
  destruct (sub_at_ s) as [|token|token|token| |]; try discriminate H.
  - left. destruct (chan_recv (sub_respCh s) w) as [[b w1]|] eqn:Hrecv; [| discriminate H].
    apply chan_recv_ws in Hrecv.
    destruct (decodeResponse string json b) as [res|err].
    + rewrite (surjective_pairing (sub_select _ _ _ _)) in H. inversion H; subst.
      rewrite sub_select_ws. simpl. by rewrite Hrecv.
    + inversion H; subst. simpl. by rewrite Hrecv.
  - left. destruct (chan_recv (sub_respCh s) w) as [[b w1]|] eqn:Hrecv.
    + apply chan_recv_ws in Hrecv.
      destruct (Unmarshal_into b zero) as [event ok].
      destruct (negb (bool_decide (Event.Error event = "")));
        rewrite (surjective_pairing (sub_select _ _ _ _)) in H; inversion H; subst;
        rewrite sub_select_ws; simpl; by rewrite Hrecv.
    + destruct ctx_done; inversion H; by subst.
  - destruct (writeRequest _ _ _ _ _ _) as [|err w1] eqn:Hwr; inversion H; subst.
    apply writeRequest_written in Hwr. exact Hwr.
  - left. destruct (chan_recv (sub_respCh s) w) as [[b w1]|] eqn:Hrecv; [| discriminate H].
    apply chan_recv_ws in Hrecv.
    destruct (decodeResponse bool string b); inversion H; subst; simpl; by rewrite Hrecv.
Qed.

Lemma Watch_step_written (ctx_done : bool) (g : watcher) (w w' : World) :
  Watch_step ctx_done g w = WatchLoops w' \/ Watch_step ctx_done g w = WatchReturns w' ->
  written (ws w') = written (ws w).
Proof.
  unfold Watch_step. intros H.
  destruct ctx_done.
  { destruct H as [H|H]; inversion H. by subst. }
  destruct (chan_recv (watch_respCh g) w) as [[b w1]|] eqn:Hrecv.
  2:{ destruct H as [H|H]; inversion H. }
  apply chan_recv_ws in Hrecv.
  destruct (Unmarshal_into b zero) as [event ok].
  destruct (negb ok).
  { destruct H as [H|H]; inversion H. subst. by rewrite Hrecv. }
  destruct (negb (bool_decide (Event.Error event = ""))).
  { destruct H as [H|H]; inversion H. subst. by rewrite Hrecv. }
  destruct (negb (bool_decide (_ = watch_path g)));
    destruct H as [H|H]; inversion H; subst; simpl; by rewrite Hrecv.
Qed.

Lemma exec_written (a : action) (w : World) (msgCh : list body) (w' : World)
    (msgCh' : list body) :
  exec a (w, msgCh) = Some (w', msgCh') ->
  written (ws w') = written (ws w) \/
  exists req, written (ws w') = written (ws w) ++ [req] /\
              is_Some (Map w' !! KInt (Request.ID req)).
Proof.
  destruct a as [c | c pk | c pk method params | c respCh | ch | | c pk p ev | c p s
                 | path eCh respCh | c g]; cbn [exec]; intros H.
  - inversion H. by left.
  - left. destruct (read_step c pk msgCh w) as [m1 w1|err w1| |] eqn:Hr; inversion H; subst.
    + by eapply read_step_written.
    + apply read_step_returns in Hr. by subst.
  - unfold call, make_chan in H.
    destruct (writeRequest _ _ _ _ _ _) as [|[err|] w2] eqn:Hwr; inversion H; subst;
      apply writeRequest_written in Hwr; exact Hwr.
  - left. unfold select_respCh in H.
    destruct (chans w !! respCh) as [[r [b0|] cl]|]; [| destruct c | destruct c];
      inversion H; by subst.
  - inversion H. by left.
  - inversion H. by left.
  - unfold subscribe, make_event_chan, make_chan in H. simpl in H.
    destruct (writeRequest _ _ _ _ _ _) as [|[err|] w2] eqn:Hwr; inversion H; subst;
      apply writeRequest_written in Hwr; exact Hwr.
  - destruct (subscribe_step c p s w) as [[s1 w1]|] eqn:Hs; inversion H; subst.
    by eapply subscribe_step_written.
  - left. unfold Watch_ack in H.
    destruct (chan_recv respCh w) as [[b w1]|] eqn:Hrecv; [| discriminate H].
    apply chan_recv_ws in Hrecv.
    destruct (decodeResponse string string b) as [res|err]; inversion H; subst; simpl;
      by rewrite Hrecv.
  - left. destruct (Watch_step c g w) as [w1|w1|] eqn:Hw; inversion H; subst;
      eapply Watch_step_written; eauto.
Qed.

(** X16. In every run of the package, each request that has been written
    to the websocket has its id in the routing table: [writeRequest]
    registers the channel before it writes, and nothing removes a request
    id afterwards.  A reply can therefore never arrive for a request the
    table does not know. *)
Theorem X16_written_requests_are_registered (acts : list action) :
  forall (cfg cfg' : config) (tokens : list string),
    replies_routable cfg.1 ->
    run acts cfg = Some (cfg', tokens) ->
    replies_routable cfg'.1.
Proof.
  induction acts as [|a acts IH]; intros cfg cfg' tokens Hinv Hrun.
  - inversion Hrun; by subst.
  - cbn [run] in Hrun.
    destruct (exec a cfg) as [cfg1|] eqn:Hex; [| discriminate Hrun].
    destruct (run acts cfg1) as [[cfg2 toks]|] eqn:Hrest; [| discriminate Hrun].
    inversion Hrun; subst.
    apply (IH cfg1 cfg' toks); [| done].
    destruct cfg as [w m], cfg1 as [w1 m1]. simpl in *.
    pose proof (exec_ids a w m w1 m1 Hex) as Hkept.
    destruct (exec_written a w m w1 m1 Hex) as [Hsame | (req & Happ & Hreg)];
      intros req' Hin.
    + rewrite Hsame in Hin. by apply Hkept, Hinv.
    + rewrite Happ in Hin. apply elem_of_app in Hin as [Hin | Hin].
      * by apply Hkept, Hinv.
      * apply list_elem_of_singleton in Hin. by subst.
Qed.

Lemma X16_witness :
  replies_routable started.
Proof.
  apply (X16_written_requests_are_registered start_acts (NewSandbox start_peer, [])
           (started, []) []).
  - intros req Hin. by apply elem_of_nil in Hin.
  - vm_compute. reflexivity.
Defined.
